(** * BabySAT with watched literals: a shallow embedding and its properties

    The development follows [babysat-watches.cpp].  The solver keeps all of
    its state in global variables; here they are the fields of one record
    that every operation takes and returns.

    Conventions of the embedding:
    - a literal is an [int], here a [Z]; the arrays [values], [watched] and
      [matrix] are indexed by literals of both signs, here maps keyed by [Z];
      [values] and [stamped] are allocated zeroed and [matrix] and [watched]
      hold empty vectors, which is what a missing entry of their maps reads
      as;
    - [levels] and [reasons] are allocated without an initialiser: a slot
      that was never written holds whatever the memory held.  Their maps
      have an entry for each slot written so far, and [level_of] and
      [reason_of] read a slot that was never written as 0 and as the null
      pointer, one of the contents the memory can have.  The levels and
      reasons that the theorems speak of are those of trail variables,
      whose slots [assign] has written; [analyze_literal] can read the slot
      of a variable that was never assigned, through a clause that a read
      of a stale slot made a conflict or a reason, and the embedding then
      follows the run in which that slot held 0;
    - a clause is allocated as an array of [char] that is cast to
      [Clause *], so the initialisers [= 0] of the struct never run and
      [watch1], [watch2] of a fresh clause hold what the memory held;
      [add_clause_at] takes these contents as arguments, and [add_clause]
      is the call on memory that reads as zero.  The contents matter for
      empty and unit clauses only, where they decide whether the clause is
      put on a watch list; [parse] and the runs built on it are runs on
      memory that reads as zero, [parse_at] is [parse] on any memory;
    - a [Clause *] is the index of the clause in [clauses] (clauses are only
      ever appended), the null pointer is [None];
    - [trail .. assigned) is the list [trail]; [propagated] and the entries
      of [control] are indices into it;
    - an index outside its array is undefined behaviour in the source and
      the maps have no bounds: the parser admits only literals of the
      declared variables, and where a theorem lets an index come from
      memory that was never written it takes the index inside the array;
    - counters are unbounded integers, except where the source relies on
      unsigned wrap-around, which is then written out;
    - the two loops that erase from a [std::vector] while a range-based
      [for] walks it are modelled on the vector's buffer: the loop reads
      the slots [0 .. n0) of the storage, where [n0] is the size at loop
      entry, and [erase (remove ...)] compacts the live prefix in place and
      leaves the slots behind it as they were. *)

From stdpp Require Import gmap list.
From Stdlib Require Import ZArith Lia.

Local Open Scope Z_scope.

(** ** Data *)

(** [struct Clause]: the literals with the two watches and the blocker.
    [size] is the length of [literals]. *)
Record Clause : Type := mkClause {
  literals : list Z;
  watch1 : Z;
  watch2 : Z;
  blocker : Z
}.


Definition set_watch1 (w : Z) (c : Clause) : Clause :=
  mkClause (literals c) w (watch2 c) (blocker c).
Definition set_watch2 (w : Z) (c : Clause) : Clause :=
  mkClause (literals c) (watch1 c) w (blocker c).
Definition set_blocker (b : Z) (c : Clause) : Clause :=
  mkClause (literals c) (watch1 c) (watch2 c) b.

Record State : Type := mkState {
  variables : Z;
  values : gmap Z Z;
  levels : gmap Z Z;
  reasons : gmap Z nat;
  stamped : gmap Z Z;
  clauses : list Clause;
  matrix : gmap Z (list nat);
  watched : gmap Z (list nat);
  empty_clause : option nat;
  trail : list Z;
  propagated : nat;
  control : list nat;
  level : Z;
  limit : Z;
  added : Z;
  conflicts : Z;
  backjumps : Z;
  decisions : Z;
  propagations : Z;
  fixed : Z;
  searched : Z
}.

Definition set_values (f : gmap Z Z -> gmap Z Z) (st : State) : State :=
  mkState (variables st) (f (values st)) (levels st) (reasons st)
    (stamped st) (clauses st) (matrix st) (watched st) (empty_clause st)
    (trail st) (propagated st) (control st) (level st) (limit st) (added st)
    (conflicts st) (backjumps st) (decisions st) (propagations st)
    (fixed st) (searched st).

Definition set_levels (f : gmap Z Z -> gmap Z Z) (st : State) : State :=
  mkState (variables st) (values st) (f (levels st)) (reasons st)
    (stamped st) (clauses st) (matrix st) (watched st) (empty_clause st)
    (trail st) (propagated st) (control st) (level st) (limit st) (added st)
    (conflicts st) (backjumps st) (decisions st) (propagations st)
    (fixed st) (searched st).

Definition set_reasons (f : gmap Z nat -> gmap Z nat) (st : State) : State :=
  mkState (variables st) (values st) (levels st) (f (reasons st))
    (stamped st) (clauses st) (matrix st) (watched st) (empty_clause st)
    (trail st) (propagated st) (control st) (level st) (limit st) (added st)
    (conflicts st) (backjumps st) (decisions st) (propagations st)
    (fixed st) (searched st).

Definition set_stamped (f : gmap Z Z -> gmap Z Z) (st : State) : State :=
  mkState (variables st) (values st) (levels st) (reasons st)
    (f (stamped st)) (clauses st) (matrix st) (watched st) (empty_clause st)
    (trail st) (propagated st) (control st) (level st) (limit st) (added st)
    (conflicts st) (backjumps st) (decisions st) (propagations st)
    (fixed st) (searched st).

Definition set_clauses (f : list Clause -> list Clause) (st : State) : State :=
  mkState (variables st) (values st) (levels st) (reasons st) (stamped st)
    (f (clauses st)) (matrix st) (watched st) (empty_clause st) (trail st)
    (propagated st) (control st) (level st) (limit st) (added st)
    (conflicts st) (backjumps st) (decisions st) (propagations st)
    (fixed st) (searched st).

Definition set_matrix (f : gmap Z (list nat) -> gmap Z (list nat)) (st : State) : State :=
  mkState (variables st) (values st) (levels st) (reasons st) (stamped st)
    (clauses st) (f (matrix st)) (watched st) (empty_clause st) (trail st)
    (propagated st) (control st) (level st) (limit st) (added st)
    (conflicts st) (backjumps st) (decisions st) (propagations st)
    (fixed st) (searched st).

Definition set_watched (f : gmap Z (list nat) -> gmap Z (list nat)) (st : State) : State :=
  mkState (variables st) (values st) (levels st) (reasons st) (stamped st)
    (clauses st) (matrix st) (f (watched st)) (empty_clause st) (trail st)
    (propagated st) (control st) (level st) (limit st) (added st)
    (conflicts st) (backjumps st) (decisions st) (propagations st)
    (fixed st) (searched st).

Definition set_empty_clause (f : option nat -> option nat) (st : State) : State :=
  mkState (variables st) (values st) (levels st) (reasons st) (stamped st)
    (clauses st) (matrix st) (watched st) (f (empty_clause st)) (trail st)
    (propagated st) (control st) (level st) (limit st) (added st)
    (conflicts st) (backjumps st) (decisions st) (propagations st)
    (fixed st) (searched st).

Definition set_trail (f : list Z -> list Z) (st : State) : State :=
  mkState (variables st) (values st) (levels st) (reasons st) (stamped st)
    (clauses st) (matrix st) (watched st) (empty_clause st) (f (trail st))
    (propagated st) (control st) (level st) (limit st) (added st)
    (conflicts st) (backjumps st) (decisions st) (propagations st)
    (fixed st) (searched st).

Definition set_propagated (f : nat -> nat) (st : State) : State :=
  mkState (variables st) (values st) (levels st) (reasons st) (stamped st)
    (clauses st) (matrix st) (watched st) (empty_clause st) (trail st)
    (f (propagated st)) (control st) (level st) (limit st) (added st)
    (conflicts st) (backjumps st) (decisions st) (propagations st)
    (fixed st) (searched st).

Definition set_control (f : list nat -> list nat) (st : State) : State :=
  mkState (variables st) (values st) (levels st) (reasons st) (stamped st)
    (clauses st) (matrix st) (watched st) (empty_clause st) (trail st)
    (propagated st) (f (control st)) (level st) (limit st) (added st)
    (conflicts st) (backjumps st) (decisions st) (propagations st)
    (fixed st) (searched st).

Definition set_level (f : Z -> Z) (st : State) : State :=
  mkState (variables st) (values st) (levels st) (reasons st) (stamped st)
    (clauses st) (matrix st) (watched st) (empty_clause st) (trail st)
    (propagated st) (control st) (f (level st)) (limit st) (added st)
    (conflicts st) (backjumps st) (decisions st) (propagations st)
    (fixed st) (searched st).

Definition set_added (f : Z -> Z) (st : State) : State :=
  mkState (variables st) (values st) (levels st) (reasons st) (stamped st)
    (clauses st) (matrix st) (watched st) (empty_clause st) (trail st)
    (propagated st) (control st) (level st) (limit st) (f (added st))
    (conflicts st) (backjumps st) (decisions st) (propagations st)
    (fixed st) (searched st).

Definition set_conflicts (f : Z -> Z) (st : State) : State :=
  mkState (variables st) (values st) (levels st) (reasons st) (stamped st)
    (clauses st) (matrix st) (watched st) (empty_clause st) (trail st)
    (propagated st) (control st) (level st) (limit st) (added st)
    (f (conflicts st)) (backjumps st) (decisions st) (propagations st)
    (fixed st) (searched st).

Definition set_backjumps (f : Z -> Z) (st : State) : State :=
  mkState (variables st) (values st) (levels st) (reasons st) (stamped st)
    (clauses st) (matrix st) (watched st) (empty_clause st) (trail st)
    (propagated st) (control st) (level st) (limit st) (added st)
    (conflicts st) (f (backjumps st)) (decisions st) (propagations st)
    (fixed st) (searched st).

Definition set_decisions (f : Z -> Z) (st : State) : State :=
  mkState (variables st) (values st) (levels st) (reasons st) (stamped st)
    (clauses st) (matrix st) (watched st) (empty_clause st) (trail st)
    (propagated st) (control st) (level st) (limit st) (added st)
    (conflicts st) (backjumps st) (f (decisions st)) (propagations st)
    (fixed st) (searched st).

Definition set_propagations (f : Z -> Z) (st : State) : State :=
  mkState (variables st) (values st) (levels st) (reasons st) (stamped st)
    (clauses st) (matrix st) (watched st) (empty_clause st) (trail st)
    (propagated st) (control st) (level st) (limit st) (added st)
    (conflicts st) (backjumps st) (decisions st) (f (propagations st))
    (fixed st) (searched st).

Definition set_fixed (f : Z -> Z) (st : State) : State :=
  mkState (variables st) (values st) (levels st) (reasons st) (stamped st)
    (clauses st) (matrix st) (watched st) (empty_clause st) (trail st)
    (propagated st) (control st) (level st) (limit st) (added st)
    (conflicts st) (backjumps st) (decisions st) (propagations st)
    (f (fixed st)) (searched st).

Definition set_searched (f : Z -> Z) (st : State) : State :=
  mkState (variables st) (values st) (levels st) (reasons st) (stamped st)
    (clauses st) (matrix st) (watched st) (empty_clause st) (trail st)
    (propagated st) (control st) (level st) (limit st) (added st)
    (conflicts st) (backjumps st) (decisions st) (propagations st)
    (fixed st) (f (searched st)).

(** [initialize]: [values] and [stamped] zeroed, [matrix] and [watched]
    empty, no slot of [levels] and [reasons] written yet, empty trail,
    level 0.  [limit] is the conflict limit of the command line. *)
Definition initialize (n lim : Z) : State :=
  mkState n ∅ ∅ ∅ ∅ [] ∅ ∅ None [] 0%nat [] 0 lim 0 0 0 0 0 0 1.

(** ** Reading the arrays *)

(** [values] and [stamped] are zeroed by [initialize].  [levels] and
    [reasons] are not: [levels[idx]] and [reasons[idx]] hold what [assign]
    wrote last, and before the first assignment of [idx] whatever the memory
    held, for which [level_of] takes 0 and [reason_of] the null pointer. *)
Definition value (st : State) (lit : Z) : Z := default 0 (values st !! lit).
Definition level_of (st : State) (idx : Z) : Z := default 0 (levels st !! idx).
Definition stamp_of (st : State) (idx : Z) : Z := default 0 (stamped st !! idx).
Definition reason_of (st : State) (idx : Z) : option nat := reasons st !! idx.
Definition watches (st : State) (lit : Z) : list nat :=
  default [] (watched st !! lit).
Definition occs (m : gmap Z (list nat)) (lit : Z) : list nat :=
  default [] (m !! lit).

Definition push_back (lit : Z) (h : nat) (m : gmap Z (list nat))
  : gmap Z (list nat) := <[lit := occs m lit ++ [h]]> m.

(** [v.erase (std::remove (v.begin (), v.end (), x), v.end ())] *)
Definition erase_all {A} `{EqDecision A} (x : A) (l : list A) : list A :=
  filter (λ y, y ≠ x) l.

(** The storage of a vector after its live prefix became [live]: the slots
    behind the live prefix keep what they held, and the loop never looks
    past slot [n0]. *)
Definition restore {A} (n0 : nat) (live buf : list A) : list A :=
  take n0 (live ++ drop (length live) buf).

(** ** Assignment store *)

Definition assign (lit : Z) (reason : option nat) (st : State) : State :=
  let st := set_values (λ v, <[- lit := -1]> (<[lit := 1]> v)) st in
  let idx := Z.abs lit in
  let st := set_levels (λ l, <[idx := level st]> l) st in
  let st := set_reasons (λ r, match reason with
                               | Some h => <[idx := h]> r
                               | None => delete idx r
                               end) st in
  let st := set_trail (λ t, t ++ [lit]) st in
  if level st =? 0 then set_fixed (λ f, f + 1) st else st.

Definition unassign (lit : Z) (st : State) : State :=
  let st := set_values (λ v, <[lit := 0]> (<[- lit := 0]> v)) st in
  let tmp := Z.abs lit in
  if tmp <? searched st then set_searched (λ _, tmp) st else st.

(** ** Clause store *)

Definition connect_literal (lit : Z) (h : nat) (st : State) : State :=
  set_matrix (push_back lit h) st.

Definition upd_clause (h : nat) (f : Clause → Clause) (st : State) : State :=
  set_clauses (alter f h) st.

(** [for (auto lit : *c) connect_literal (lit, c)] on the matrix. *)
Definition connect_all (lits : list Z) (h : nat) (m : gmap Z (list nat))
  : gmap Z (list nat) := foldl (λ m lit, push_back lit h m) m lits.

(** [add_clause] in its stages.  The new clause gets the handle
    [length (clauses st)].  It is allocated by [new char[bytes]] and cast,
    so nothing has written [watch1], [watch2] and [blocker] when the
    function starts: [w1] and [w2] are what the memory holds there, and
    [b0] is the word that [literals[0]] reads behind an empty clause. *)

(** Allocate, count, save on the stack of clauses, connect in the matrix.
    The field [blocker] is written by [init_blocker] before anything reads
    it; until then it is shown as 0. *)
Definition store_clause (w1 w2 : Z) (lits : list Z) (st : State) : State :=
  let h := length (clauses st) in
  let st := set_added (λ a, a + 1) st in
  let st := set_clauses (λ cs, cs ++ [mkClause lits w1 w2 0]) st in
  foldl (λ s lit, connect_literal lit h s) st lits.

(** The special case of empty and unit clauses. *)
Definition special_case (lits : list Z) (h : nat) (st : State) : State :=
  match lits with
  | [] => set_empty_clause (λ _, Some h) st
  | [unit] =>
      let v := value st unit in
      if v =? 0 then assign unit None st
      else if v <? 0 then set_empty_clause (λ _, Some h) st
      else st
  | _ => st
  end.

(** [if (size > 1)]: the watches are the first two literals.  A shorter
    clause keeps the contents its watches were allocated with. *)
Definition init_watches (lits : list Z) (h : nat) (st : State) : State :=
  match lits with
  | l0 :: l1 :: _ => upd_clause h (λ c, set_watch2 l1 (set_watch1 l0 c)) st
  | _ => st
  end.

(** [if (c->watch != 0) watched[c->watch].push_back (c)] *)
Definition connect_watch (w : Clause → Z) (h : nat) (st : State) : State :=
  let lit := from_option w 0 (clauses st !! h) in
  if lit =? 0 then st else set_watched (push_back lit h) st.

(** The blocker is the first literal; for an empty clause [literals[0]] is
    the word [b0] behind the clause. *)
Definition init_blocker (b0 : Z) (lits : list Z) (h : nat) (st : State)
  : State :=
  upd_clause h (set_blocker (nth 0 lits b0)) st.

(** [add_clause] on a fresh clause whose memory holds [w1], [w2] and [b0]. *)
Definition add_clause_at (w1 w2 b0 : Z) (lits : list Z) (st : State)
  : State * nat :=
  let h := length (clauses st) in
  let st := store_clause w1 w2 lits st in
  let st := special_case lits h st in
  let st := init_watches lits h st in
  let st := connect_watch watch1 h st in
  let st := connect_watch watch2 h st in
  (init_blocker b0 lits h st, h).

(** [add_clause] where the fresh memory reads as zero, the values that the
    struct declares for [watch1] and [watch2].  For a clause of two literals
    or more the contents of the memory make no difference
    ([add_clause_at_long]); for an empty or a unit clause they decide which
    watch lists receive the clause ([add_clause_at_short]). *)
Definition add_clause (lits : list Z) (st : State) : State * nat :=
  add_clause_at 0 0 0 lits st.

(** ** Propagator *)

(** The scan found the new watch [other] for the clause [c] with handle
    [h]: the clause leaves [watched[-lit]] and joins [watched[other]], and
    the two tests on [check] store the new watch. *)
Definition move_watch (lit : Z) (h : nat) (check other : Z) (c : Clause)
    (st : State) : State :=
  let st := set_watched (λ w, <[- lit := erase_all h (occs w (- lit))]> w) st in
  let st := set_watched (push_back other h) st in
  let st := if check =? watch1 c
            then upd_clause h (set_watch2 other) st else st in
  let w2 := from_option watch2 0 (clauses st !! h) in
  if check =? w2 then upd_clause h (set_watch1 other) st else st.

(** One turn of the loop [for (auto other : *c)] in [propagate], for the
    clause with handle [h] found in [watched[-lit]]; [found] is the flag
    [found_new_watch]. *)
Definition scan_step (lit : Z) (h : nat) (check : Z)
    (acc : State * bool) (other : Z) : State * bool :=
  let '(st, found) := acc in
  let st :=
    if value st other =? 1 then upd_clause h (set_blocker other) st else st in
  if found then (st, true)
  else
    match clauses st !! h with
    | None => (st, false)
    | Some c =>
        if (-1 <? value st other) && negb (watch1 c =? other)
           && negb (watch2 c =? other)
        then (move_watch lit h check other c st, true)
        else (st, false)
    end.

(** The body of [for (auto c : occurrences)]: the new state, and the
    conflicting clause when the loop returns out of [propagate]. *)
Definition visit (lit : Z) (h : nat) (st : State) : State * option nat :=
  match clauses st !! h with
  | None => (st, None)
  | Some c =>
      if value st (blocker c) =? 1 then (st, None)
      else
        let check := if watch1 c =? - lit then watch2 c else watch1 c in
        if value st check =? 1 then (st, None)
        else
          let '(st, found) :=
            foldl (scan_step lit h check) (st, false) (literals c) in
          if found then (st, None)
          else if value st check =? -1
          then (set_conflicts (λ n, n + 1) st, Some h)
          else if value st check =? 0
          then (assign check (Some h) st, None)
          else (st, None)
  end.

(** The range-based loop over [watched[-lit]]: [k] slots are left to read,
    [i] is the slot read next and [buf] the storage of the vector. *)
Fixpoint visit_from (k : nat) (lit : Z) (i n0 : nat) (buf : list nat)
    (st : State) : State * option nat :=
  match k with
  | O => (st, None)
  | S k' =>
      match buf !! i with
      | None => (st, None)
      | Some h =>
          match visit lit h st with
          | (st', Some c) => (st', Some c)
          | (st', None) =>
              visit_from k' lit (S i) n0
                (restore n0 (watches st' (- lit)) buf) st'
          end
      end
  end.

Definition propagate_literal (lit : Z) (st : State) : State * option nat :=
  let buf := watches st (- lit) in
  visit_from (length buf) lit 0 (length buf) buf st.

(** [while (propagated != assigned)]; [None] when [fuel] turns do not
    finish the loop. *)
Fixpoint propagate_loop (fuel : nat) (st : State)
    : option (State * option nat) :=
  match trail st !! propagated st with
  | None => Some (st, None)
  | Some lit =>
      match fuel with
      | O => None
      | S fuel' =>
          let st := set_propagations (λ n, n + 1) st in
          let st := set_propagated S st in
          match propagate_literal lit st with
          | (st', Some c) => Some (st', Some c)
          | (st', None) => propagate_loop fuel' st'
          end
      end
  end.

(** The trail is an array of [variables + 1] literals, so a run that stays
    inside it takes at most that many turns. *)
Definition propagate (st : State) : option (State * option nat) :=
  propagate_loop (Z.to_nat (variables st) + 1) st.

(** ** Decider *)

(** [while (values[searched]) searched++]: [values] has the slots up to
    [variables + 1]; [None] when the cursor leaves the array. *)
Fixpoint search (fuel : nat) (st : State) (s : Z) : option Z :=
  if value st s =? 0 then Some s
  else match fuel with
       | O => None
       | S fuel' => search fuel' st (s + 1)
       end.

Definition decide (st : State) : option State :=
  let st := set_decisions (λ n, n + 1) st in
  match search (Z.to_nat (variables st + 1 - searched st)) st (searched st) with
  | None => None
  | Some s =>
      let st := set_searched (λ _, s) st in
      let st := set_level (λ l, l + 1) st in
      let st := set_control (λ c, c ++ [length (trail st)]) st in
      let st := set_stamped (λ m, <[s := 0]> m) st in
      Some (assign s None st)
  end.

(** ** Backtracking *)

(** [None] when [control[new_level]] is not an entry of [control], or lies
    above [assigned]. *)
Definition backtrack (new_level : Z) (st : State) : option State :=
  if new_level <? 0 then None else
  match control st !! Z.to_nat new_level with
  | None => None
  | Some before =>
      if (length (trail st) <? before)%nat then None
      else
        let st := foldl (λ s lit, unassign lit s) st
                    (rev (drop before (trail st))) in
        let st := set_trail (take before) st in
        let st := set_control (take (Z.to_nat new_level)) st in
        let st := set_propagated (λ _, before) st in
        Some (set_level (λ _, new_level) st)
  end.

(** ** Analyzer *)

Definition analyze_literal (acc : State * Z * Z) (lit : Z) : State * Z * Z :=
  let '(st, current, lower) := acc in
  let idx := Z.abs lit in
  let lvl := level_of st idx in
  if (lvl =? 0) || (stamp_of st idx =? conflicts st) then (st, current, lower)
  else
    let st' := set_stamped (λ m, <[idx := conflicts st]> m) st in
    if lvl =? level st then (st', current + 1, lower)
    else (st', current, lower + 1).

Definition clause_literals (st : State) (h : nat) : list Z :=
  from_option literals [] (clauses st !! h).

(** [while (current > 1)]: [n] is [copy - trail + 1], so the literal read
    is [trail[n - 1]]; [None] when [copy] falls below [trail]. *)
Fixpoint resolve (n : nat) (st : State) (current lower : Z)
    : option (nat * State * Z * Z) :=
  if 1 <? current then
    match n with
    | O => None
    | S k =>
        match trail st !! k with
        | None => None
        | Some lit =>
            let idx := Z.abs lit in
            if stamp_of st idx =? conflicts st then
              let '(st', current', lower') :=
                match reason_of st idx with
                | Some r =>
                    foldl analyze_literal (st, current, lower)
                      (clause_literals st r)
                | None => (st, current, lower)
                end in
              resolve k st' (current' - 1) lower'
            else resolve k st current lower
        end
    end
  else Some (n, st, current, lower).

(** The loop that skips the literals not stamped: the index of the first
    stamped literal at or below [trail[n - 1]]. *)
Fixpoint skip (n : nat) (st : State) : option nat :=
  match n with
  | O => None
  | S k =>
      match trail st !! k with
      | None => None
      | Some lit =>
          if stamp_of st (Z.abs lit) =? conflicts st then Some k
          else skip k st
      end
  end.

(** [while (lower)]: the stamped literals below the UIP, negated, and the
    largest of their levels. *)
Fixpoint collect (n : nat) (st : State) (lower : Z) (learned : list Z)
    (backjump : Z) : option (list Z * Z) :=
  if lower =? 0 then Some (learned, backjump)
  else
    match n with
    | O => None
    | S k =>
        match trail st !! k with
        | None => None
        | Some lit =>
            let idx := Z.abs lit in
            if stamp_of st idx =? conflicts st then
              let lvl := level_of st idx in
              collect k st (lower - 1) (learned ++ [- lit])
                (if backjump <? lvl then lvl else backjump)
            else collect k st lower learned backjump
        end
    end.

(** The test of the simple minimization for one literal of [learned]. *)
Definition redundant (st : State) (learned : list Z) (lit : Z) : bool :=
  let idx := Z.abs lit in
  match reason_of st idx with
  | None => false
  | Some r =>
      match clauses st !! r with
      | None => false
      | Some c =>
          forallb (λ other, (idx =? Z.abs other)
                            || bool_decide (other ∈ learned)) (literals c)
      end
  end.

(** [for (auto lit : learned)] with the [erase] inside it. *)
Fixpoint minimize_from (k : nat) (st : State) (i n0 : nat)
    (buf learned : list Z) : list Z :=
  match k with
  | O => learned
  | S k' =>
      match buf !! i with
      | None => learned
      | Some lit =>
          let learned' :=
            if redundant st learned lit then erase_all lit learned
            else learned in
          minimize_from k' st (S i) n0 (restore n0 learned' buf) learned'
      end
  end.

Definition minimize (st : State) (learned : list Z) : list Z :=
  minimize_from (length learned) st 0 (length learned) learned learned.

(** The first half of [analyze], up to the simple minimization: the state
    with its new stamps, the UIP, the candidate clause and the backjump
    level. *)
Definition analyze_conflict (h : nat) (st : State)
    : option (State * Z * list Z * Z) :=
  let '(st, current, lower) :=
    foldl analyze_literal (st, 0, 0) (clause_literals st h) in
  match resolve (length (trail st)) st current lower with
  | None => None
  | Some (n, st, _, lower) =>
      match skip n st with
      | None => None
      | Some k =>
          match trail st !! k with
          | None => None
          | Some uip =>
              match collect k st lower [] 0 with
              | None => None
              | Some (learned, backjump) => Some (st, uip, learned, backjump)
              end
          end
      end
  end.

Definition wrap32 (z : Z) : Z := z mod 2 ^ 32.

(** The second half: minimize, add the UIP, backjump, learn and assert.
    [level - 1] is an [unsigned] subtraction. *)
Definition learn (uip : Z) (learned : list Z) (backjump : Z) (st : State)
    : option State :=
  let learned := minimize st learned ++ [- uip] in
  match backtrack backjump st with
  | None => None
  | Some st =>
      let st :=
        if (1 <? length learned)%nat then
          let '(st, h) := add_clause learned st in assign (- uip) (Some h) st
        else assign (- uip) None st in
      Some (if backjump <? wrap32 (level st - 1)
            then set_backjumps (λ n, n + 1) st else st)
  end.

Definition analyze (h : nat) (st : State) : option State :=
  match analyze_conflict h st with
  | None => None
  | Some (st, uip, learned, backjump) => learn uip learned backjump st
  end.

(** ** Search driver *)

Definition unknown : Z := 0.
Definition satisfiable : Z := 10.
Definition unsatisfiable : Z := 20.

Definition satisfied (st : State) : bool :=
  Z.of_nat (length (trail st)) =? variables st.

Definition clause_satisfied (st : State) (c : Clause) : bool :=
  existsb (λ lit, 0 <? value st lit) (literals c).

(** One turn of [for (;;)] in [solve]: [Some code] next to the state when the
    turn returns, [None] next to it when the loop goes on; no result at all
    when propagation or analysis leaves the trail. *)
Definition solve_step (st : State) : option (State * option Z) :=
  match propagate st with
  | None => None
  | Some (st, Some conflict) =>
      if level st =? 0 then Some (st, Some unsatisfiable)
      else match analyze conflict st with
           | None => None
           | Some st => Some (st, None)
           end
  | Some (st, None) =>
      if satisfied st then Some (st, Some satisfiable)
      else if limit st <=? conflicts st then Some (st, Some unknown)
      else match decide st with
           | None => None
           | Some st => Some (st, None)
           end
  end.

Fixpoint solve_loop (fuel : nat) (st : State) : option (State * Z) :=
  match fuel with
  | O => None
  | S fuel' =>
      match solve_step st with
      | None => None
      | Some (st, Some code) => Some (st, code)
      | Some (st, None) => solve_loop fuel' st
      end
  end.

Definition solve (fuel : nat) (st : State) : option (State * Z) :=
  match empty_clause st with
  | Some _ => Some (st, unsatisfiable)
  | None => solve_loop fuel st
  end.

(** [parse] after the header: one [add_clause] per clause of the file, each
    allocated on memory that reads as zero ([parse_at] below takes what the
    allocations hold). *)
Definition parse (n lim : Z) (cnf : list (list Z)) : State :=
  foldl (λ st lits, (add_clause lits st).1) (initialize n lim) cnf.

Definition check_model (st : State) : bool :=
  forallb (clause_satisfied st) (clauses st).

(** The state with another clause store and watch index. *)
Definition with_store (cs : list Clause) (ws : gmap Z (list nat))
    (st : State) : State :=
  set_watched (λ _, ws) (set_clauses (λ _, cs) st).

(** ** The propagator's visit of one clause, as a specification *)

(** The test [values[other] > -1 && c->watch1 != other && c->watch2 != other]
    of the scan. *)
Definition replaces (st : State) (w1 w2 other : Z) : bool :=
  (-1 <? value st other) && negb (w1 =? other) && negb (w2 =? other).

(** The literal the scan picks as the new watch: the first literal of the
    clause, in stored order, that is not false and is not watched. *)
Definition replacement (st : State) (c : Clause) : option Z :=
  List.find (replaces st (watch1 c) (watch2 c)) (literals c).

(** The watched literal that [propagate] calls [check]. *)
Definition other_watch (lit : Z) (c : Clause) : Z :=
  if watch1 c =? - lit then watch2 c else watch1 c.

(** The clause after [blocker_only] steps differs in its blocker at most. *)
Definition blocker_only (h : nat) (s s' : State) : Prop :=
  (∃ cs, s' = set_clauses (λ _, cs) s)
  ∧ (∀ h', h' ≠ h → clauses s' !! h' = clauses s !! h')
  ∧ (∀ c, clauses s !! h = Some c →
       ∃ b, clauses s' !! h = Some (set_blocker b c)).

(** ** Runs used as examples *)

(** The default conflict limit, [(size_t) -1]. *)
Definition no_limit : Z := 2 ^ 64 - 1.

(** Propagate and, when there is no conflict, decide. *)
Definition propagate_decide (st : State) : option State :=
  match propagate st with
  | Some (st, None) => decide st
  | _ => None
  end.

(** The start of a turn of [while (propagated != assigned)]: the turn is
    counted and the cursor has moved over the literal it reads. *)
Definition consume (st : State) : State :=
  set_propagated S (set_propagations (λ n, n + 1) st).

(** [3 0], [-1 -2 4 3 0], [-2 -4 0] over four variables: after the unit 3
    and the decisions 1 and 2, at the visit of the second clause for the
    trail literal 2. *)
Definition blocker_cnf : list (list Z) := [[3]; [-1; -2; 4; 3]; [-2; -4]].

Definition blocker_visit : option State :=
  st ← propagate_decide (parse 4 no_limit blocker_cnf);
  st ← propagate_decide st;
  Some (consume st).

(** ** Frames *)

(** What [assign] and [add_clause] leave alone. *)
Definition same_control (st st' : State) : Prop :=
  variables st' = variables st ∧ stamped st' = stamped st
  ∧ propagated st' = propagated st ∧ control st' = control st
  ∧ level st' = level st ∧ limit st' = limit st
  ∧ conflicts st' = conflicts st ∧ backjumps st' = backjumps st
  ∧ decisions st' = decisions st ∧ propagations st' = propagations st
  ∧ searched st' = searched st.

(** The formula [-1 2 0], [-1 -2 0] over two variables:
    the state at the first conflict, after the decision 1. *)
Definition unit_cnf : list (list Z) := [[-1; 2]; [-1; -2]].

Definition unit_conflict : option (State * option nat) :=
  st ← propagate_decide (parse 2 no_limit unit_cnf);
  propagate st.


(** Five clauses over five variables in which [-1 -2] is the second of three
    clauses watching [-1] and the second of three watching [-2]; the first of
    each three finds a new watch when its turn comes. *)
Definition skipped_cnf : list (list Z) :=
  [[-2; 3; 5]; [-1; 2; 3]; [-1; -2]; [-1; 4]; [-2; 4]].

(** [1 0], [-1 -2 3 0], [-4 -3 5 0], [-4 -2 -5 0] over five variables: the
    state at the first conflict, after the decisions 2 and 4. *)
Definition minimize_cnf : list (list Z) :=
  [[1]; [-1; -2; 3]; [-4; -3; 5]; [-4; -2; -5]].

Definition minimize_conflict : option (State * option nat) :=
  st ← propagate_decide (parse 5 no_limit minimize_cnf);
  st ← propagate_decide st;
  propagate st.

(** [-4 -1 0], [3 -1 -2 0], [-3 -2 4 0] over five variables: the state at the
    first conflict, after the decisions 1 and 2. *)
Definition removing_cnf : list (list Z) := [[-4; -1]; [3; -1; -2]; [-3; -2; 4]].

Definition removing_conflict : option (State * option nat) :=
  st ← propagate_decide (parse 5 no_limit removing_cnf);
  st ← propagate_decide st;
  propagate st.


(** ** States of a run *)

(** The parser ends a clause at the literal 0, so no clause contains it. *)
Definition nonzero (lits : list Z) : Prop := Forall (λ l, l ≠ 0) lits.

(** The states that the public operations produce from [initialize], in any
    order of calls, the clauses being allocated on memory that reads as
    zero. *)
Inductive reachable : State → Prop :=
  | reach_initialize n lim : reachable (initialize n lim)
  | reach_add_clause st lits :
      nonzero lits → reachable st → reachable (add_clause lits st).1
  | reach_propagate st st' r :
      reachable st → propagate st = Some (st', r) → reachable st'
  | reach_decide st st' :
      reachable st → decide st = Some st' → reachable st'
  | reach_analyze st h st' :
      reachable st → analyze h st = Some st' → reachable st'
  | reach_backtrack st l st' :
      reachable st → backtrack l st = Some st' → reachable st'.

(** Each variable's two entries of [values] are both 0, or 1 and -1. *)
Definition sign_consistent (st : State) : Prop :=
  ∀ l : Z, l ≠ 0 →
    (value st l = 0 ∧ value st (- l) = 0)
    ∨ (value st l = 1 ∧ value st (- l) = -1)
    ∨ (value st l = -1 ∧ value st (- l) = 1).




(** Clauses are never removed and their literals never change. *)
Definition extends (st st' : State) : Prop :=
  ∀ h c, clauses st !! h = Some c →
    ∃ c', clauses st' !! h = Some c' ∧ literals c' = literals c.

(** How an operation may change [values] and [searched]: by calls of
    [assign] and [unassign], by moving the cursor over assigned variables,
    and not at all. *)
Inductive evolves : State → State → Prop :=
  | ev_frame st st' :
      values st' = values st → searched st' = searched st → evolves st st'
  | ev_assign st lit r : evolves st (assign lit r st)
  | ev_unassign st lit : evolves st (unassign lit st)
  | ev_search st st' :
      values st' = values st → searched st ≤ searched st' →
      (∀ v, searched st ≤ v < searched st' → value st v ≠ 0) →
      evolves st st'
  | ev_trans st1 st2 st3 : evolves st1 st2 → evolves st2 st3 → evolves st1 st3.

(** ** Trail consistency *)

(** The number of decisions at the trail positions up to [i]: [control]
    holds the position of every decision on the trail. *)
Definition decisions_upto (ctl : list nat) (i : nat) : nat :=
  length (filter (λ k, (k ≤ i)%nat) ctl).






(** ** Bookkeeping of the analysis *)



(** The states of a run of the solver: clauses are added (on memory that
    reads as zero), [propagate] and [decide] are called, a conflict found by
    [propagate] is analyzed; the state between the backjump and the
    assignment of the negated UIP is one of them. *)
Inductive run : State → Prop :=
  | run_initialize n lim : run (initialize n lim)
  | run_add_clause st lits :
      nonzero lits → run st → run (add_clause lits st).1
  | run_propagate st st' r :
      run st → propagate st = Some (st', r) → run st'
  | run_decide st st' :
      run st → decide st = Some st' → run st'
  | run_backjump st st1 c st2 uip learned b st' :
      run st → propagate st = Some (st1, Some c) →
      analyze_conflict c st1 = Some (st2, uip, learned, b) →
      backtrack b st2 = Some st' → run st'
  | run_analyze st st1 c st' :
      run st → propagate st = Some (st1, Some c) →
      analyze c st1 = Some st' → run st'.

(** ** The search *)

(** A literal that [parse] accepts for a formula over [n] variables. *)
Definition in_range (n lit : Z) : Prop := lit ≠ 0 ∧ Z.abs lit ≤ n.

(** A formula that [parse] accepts. *)
Definition well_formed (n : Z) (cnf : list (list Z)) : Prop :=
  Forall (Forall (in_range n)) cnf.

(** What [add_clause] and [propagate] do to the assignment and to the
    clauses: the literals [new] are pushed on the trail, what was assigned
    keeps its value and nothing else but [new] gets one, every literal of
    [new] is a literal of a stored clause, and the clauses [more] are stored
    behind the others, whose literals stay. *)
Record grows (st st' : State) (new : list Z) (more : list (list Z))
    : Prop := {
  gr_trail : trail st' = trail st ++ new;
  gr_old : ∀ l, value st l ≠ 0 → value st' l = value st l;
  gr_new : ∀ l, value st' l ≠ 0 → value st l ≠ 0 ∨ l ∈ new ∨ (- l) ∈ new;
  gr_literals : ∀ l, l ∈ new → ∃ c, c ∈ clauses st' ∧ l ∈ literals c;
  gr_clauses : literals <$> clauses st' = (literals <$> clauses st) ++ more;
  gr_variables : variables st' = variables st;
  gr_level : level st' = level st;
  gr_control : control st' = control st;
  gr_fixed :
    fixed st'
    = fixed st + (if level st =? 0 then Z.of_nat (length new) else 0)
}.






(** ** The end of [main] *)





(** ** The parser *)






(** [n && !(n & (n - 1))] on a [size_t] *)
Definition is_power_of_two (n : Z) : bool :=
  negb (n =? 0) && (Z.land n (n - 1) =? 0).

(** ** Reasons *)


(** ** Registered watches *)




(** ** Memory that was never written *)

(** [if (w != 0) watched[w].push_back (c)] on the watch index. *)
Definition push_watch (w : Z) (h : nat) (m : gmap Z (list nat))
  : gmap Z (list nat) := if w =? 0 then m else push_back w h m.

(** The literals that index [watched]: the array has [2 * (variables + 1)]
    vectors and starts at [- variables]. *)
Definition inside (n w : Z) : Prop := - n ≤ w ≤ n + 1.

(** What the allocation of a clause holds where [watch1] and [watch2] will
    be, and behind the clause. *)
Record fresh : Type := mkFresh {
  fresh_watch1 : Z;
  fresh_watch2 : Z;
  fresh_behind : Z
}.

Definition zeroed : fresh := mkFresh 0 0 0.

(** The watches found in fresh memory index inside [watched]. *)
Definition fresh_inside (n : Z) (f : fresh) : Prop :=
  inside n (fresh_watch1 f) ∧ inside n (fresh_watch2 f).

(** [parse] behind the header where the allocation of the clause with
    handle [h] holds [mem h]. *)
Definition parse_at (mem : nat → fresh) (n lim : Z) (cnf : list (list Z))
  : State :=
  foldl (λ st lits,
           let f := mem (length (clauses st)) in
           (add_clause_at (fresh_watch1 f) (fresh_watch2 f) (fresh_behind f)
              lits st).1)
    (initialize n lim) cnf.

(** The state without what the watches hold: the watch index is emptied and
    every clause keeps its literals only. *)
Definition unwatched (st : State) : State :=
  set_watched (λ _, ∅)
    (set_clauses (fmap (λ c, mkClause (literals c) 0 0 0)) st).

(** * Properties *)

(** ** How the operations change the assignment *)

Lemma evolves_refl st : evolves st st.
Proof. by apply ev_frame. Qed.

Lemma value_assign_same lit r st :
  lit ≠ 0 → value (assign lit r st) lit = 1.
Proof.
  intros Hl. unfold assign, value. destruct (level _ =? 0); simpl;
    rewrite lookup_insert_ne; [|lia| |lia]; by rewrite lookup_insert_eq.
Qed.

Lemma value_assign_neg lit r st : value (assign lit r st) (- lit) = -1.
Proof.
  unfold assign, value. destruct (level _ =? 0); simpl;
    by rewrite lookup_insert_eq.
Qed.

Lemma value_assign_other lit r st l :
  l ≠ lit → l ≠ - lit → value (assign lit r st) l = value st l.
Proof.
  intros H1 H2. unfold assign, value. destruct (level _ =? 0); simpl;
    by rewrite !lookup_insert_ne.
Qed.

Lemma value_unassign_same lit st : value (unassign lit st) lit = 0.
Proof.
  unfold unassign, value. destruct (_ <? _); simpl;
    by rewrite lookup_insert_eq.
Qed.

Lemma value_unassign_neg lit st : value (unassign lit st) (- lit) = 0.
Proof.
  unfold unassign, value.
  destruct (Z.eq_dec lit (- lit)) as [He|Hn].
  - destruct (_ <? _); simpl; rewrite <- He; by rewrite lookup_insert_eq.
  - destruct (_ <? _); simpl; rewrite lookup_insert_ne; [|done| |done];
      by rewrite lookup_insert_eq.
Qed.

Lemma value_unassign_other lit st l :
  l ≠ lit → l ≠ - lit → value (unassign lit st) l = value st l.
Proof.
  intros H1 H2. unfold unassign, value. destruct (_ <? _); simpl;
    by rewrite !lookup_insert_ne.
Qed.



Lemma sign_consistent_evolves st st' :
  evolves st st' → sign_consistent st → sign_consistent st'.
Proof.
  induction 1 as [st st' Hv _|st lit r|st lit|st st' Hv _ _|st1 st2 st3 _ IH1 _ IH2];
    intros Hs; [| | | |by auto].
  - intros l Hl. unfold value. rewrite Hv. by apply Hs.
  - intros l Hl.
    destruct (Z.eq_dec lit 0) as [->|Hlit].
    { rewrite !value_assign_other by lia. by apply Hs. }
    destruct (Z.eq_dec l lit) as [->|H1].
    { right; left. by rewrite value_assign_same, value_assign_neg. }
    destruct (Z.eq_dec l (- lit)) as [->|H2].
    { right; right. rewrite value_assign_neg.
      replace (- - lit) with lit by lia. by rewrite value_assign_same. }
    rewrite !value_assign_other by lia. by apply Hs.
  - intros l Hl.
    destruct (Z.eq_dec l lit) as [->|H1].
    { left. by rewrite value_unassign_same, value_unassign_neg. }
    destruct (Z.eq_dec l (- lit)) as [->|H2].
    { left. rewrite value_unassign_neg.
      replace (- - lit) with lit by lia. by rewrite value_unassign_same. }
    rewrite !value_unassign_other by lia. by apply Hs.
  - intros l Hl. unfold value. rewrite Hv. by apply Hs.
Qed.


Lemma foldl_evolves {A} (f : State → A → State) (l : list A) st :
  (∀ s x, evolves s (f s x)) → evolves st (foldl f st l).
Proof.
  intros Hf. revert st. induction l as [|x l IH]; intros st; simpl.
  - apply evolves_refl.
  - eapply ev_trans; [apply Hf|apply IH].
Qed.

Lemma store_clause_evolves lits st : evolves st (store_clause 0 0 lits st).
Proof.
  unfold store_clause.
  eapply ev_trans; [|apply foldl_evolves; intros s x; by apply ev_frame].
  by apply ev_frame.
Qed.

Lemma special_case_evolves lits h st : evolves st (special_case lits h st).
Proof.
  unfold special_case.
  destruct lits as [|u [|? ?]]; [by apply ev_frame| |apply evolves_refl].
  destruct (_ =? 0); [apply ev_assign|].
  destruct (_ <? 0); [by apply ev_frame|apply evolves_refl].
Qed.

Lemma init_watches_evolves lits h st : evolves st (init_watches lits h st).
Proof. destruct lits as [|? [|? ?]]; by apply ev_frame. Qed.

Lemma connect_watch_evolves w h st : evolves st (connect_watch w h st).
Proof. unfold connect_watch. destruct (_ =? 0); by apply ev_frame. Qed.

Lemma add_clause_evolves lits st : evolves st (add_clause lits st).1.
Proof.
  unfold add_clause, add_clause_at. cbn [fst].
  eapply ev_trans; [apply store_clause_evolves|].
  eapply ev_trans; [apply special_case_evolves|].
  eapply ev_trans; [apply init_watches_evolves|].
  eapply ev_trans; [apply connect_watch_evolves|].
  eapply ev_trans; [apply connect_watch_evolves|].
  by apply ev_frame.
Qed.

(** [scan_step] only touches the clause store and the watch index. *)
Lemma scan_step_store lit h check acc other :
  ∃ cs ws, (scan_step lit h check acc other).1 = with_store cs ws acc.1.
Proof.
  destruct acc as [[] found]. unfold scan_step, move_watch.
  repeat (match goal with
          | |- context [if ?b then _ else _] => destruct b
          | |- context [match ?x with Some _ => _ | None => _ end] =>
              destruct x
          end; simpl);
    match goal with
    | |- ∃ cs ws, ?X = _ => exists (clauses X), (watched X); reflexivity
    end.
Qed.

Lemma scan_store lit h check lits acc :
  ∃ cs ws, (foldl (scan_step lit h check) acc lits).1 = with_store cs ws acc.1.
Proof.
  revert acc. induction lits as [|o lits IH]; intros acc; simpl.
  - destruct acc as [[] ?]. by exists clauses0, watched0.
  - destruct (IH (scan_step lit h check acc o)) as (cs & ws & ->).
    destruct (scan_step_store lit h check acc o) as (cs' & ws' & ->).
    by exists cs, ws.
Qed.

Lemma visit_evolves lit h st : evolves st (visit lit h st).1.
Proof.
  unfold visit. destruct (clauses st !! h) as [c|]; [|apply evolves_refl].
  destruct (_ =? 1); [apply evolves_refl|].
  destruct (_ =? 1); [apply evolves_refl|].
  match goal with |- context [foldl ?f ?a ?l] =>
    destruct (scan_store lit h (if watch1 c =? - lit then watch2 c else watch1 c)
                l a) as (cs & ws & Hst);
    destruct (foldl f a l) as [st1 found] end.
  simpl in Hst. subst st1.
  destruct found; [by apply ev_frame|].
  destruct (_ =? -1); [by apply ev_frame|].
  destruct (_ =? 0); [|by apply ev_frame].
  eapply ev_trans; [|apply ev_assign]. by apply ev_frame.
Qed.

Lemma visit_from_evolves k lit i n0 buf st :
  evolves st (visit_from k lit i n0 buf st).1.
Proof.
  revert i buf st. induction k as [|k IH]; intros i buf st; simpl.
  - apply evolves_refl.
  - destruct (buf !! i) as [h|]; [|apply evolves_refl].
    pose proof (visit_evolves lit h st) as Hv.
    destruct (visit lit h st) as [st' [c|]]; [done|].
    eapply ev_trans; [exact Hv|apply IH].
Qed.

Lemma propagate_loop_evolves fuel st st' r :
  propagate_loop fuel st = Some (st', r) → evolves st st'.
Proof.
  revert st. induction fuel as [|fuel IH]; intros st; simpl.
  - destruct (trail st !! propagated st); [done|].
    intros [= <- _]. apply evolves_refl.
  - destruct (trail st !! propagated st) as [lit|];
      [|intros [= <- _]; apply evolves_refl].
    match goal with |- context [propagate_literal lit ?s] =>
      pose proof (visit_from_evolves (length (watches s (- lit))) lit 0
                    (length (watches s (- lit))) (watches s (- lit)) s) as Hv;
      fold (propagate_literal lit s) in Hv;
      destruct (propagate_literal lit s) as [st1 [c|]] end.
    + intros [= <- _]. eapply ev_trans; [|exact Hv]. by apply ev_frame.
    + intros Hp. eapply ev_trans; [|by apply IH].
      eapply ev_trans; [|exact Hv]. by apply ev_frame.
Qed.

Lemma propagate_evolves st st' r :
  propagate st = Some (st', r) → evolves st st'.
Proof. apply propagate_loop_evolves. Qed.

Lemma search_spec fuel st s0 s :
  search fuel st s0 = Some s →
  s0 ≤ s ∧ value st s = 0 ∧ ∀ v, s0 ≤ v < s → value st v ≠ 0.
Proof.
  revert s0. induction fuel as [|fuel IH]; intros s0; simpl;
    destruct (Z.eqb_spec (value st s0) 0) as [He|Hne].
  - intros [= <-]. repeat split; [lia|done|lia].
  - done.
  - intros [= <-]. repeat split; [lia|done|lia].
  - intros Hs. destruct (IH _ Hs) as (Hle & Hz & Hb).
    repeat split; [lia|done|]. intros v Hv.
    destruct (Z.eq_dec v s0) as [->|]; [done|apply Hb; lia].
Qed.

Lemma decide_evolves st st' : decide st = Some st' → evolves st st'.
Proof.
  unfold decide.
  destruct (search _ _ _) as [s|] eqn:Hs; [|done]. intros [= <-].
  apply search_spec in Hs as (Hle & Hz & Hb).
  eapply ev_trans; [|apply ev_assign].
  apply ev_search; [done|exact Hle|exact Hb].
Qed.

Lemma backtrack_evolves l st st' : backtrack l st = Some st' → evolves st st'.
Proof.
  unfold backtrack. destruct (l <? 0); [done|].
  destruct (control st !! Z.to_nat l) as [before|]; [|done].
  destruct (_ <? _)%nat; [done|]. intros [= <-].
  apply (ev_trans _ (foldl (λ s lit, unassign lit s) st
                       (rev (drop before (trail st)))));
    [apply foldl_evolves; intros s x; apply ev_unassign|by apply ev_frame].
Qed.

(** The first half of [analyze] only writes stamps. *)
Lemma analyze_literal_stamps acc lit :
  ∃ m, (analyze_literal acc lit).1.1 = set_stamped (λ _, m) acc.1.1.
Proof.
  destruct acc as [[[] current] lower]. unfold analyze_literal.
  destruct (_ || _); [|destruct (_ =? _)]; simpl; by eexists.
Qed.

Lemma analyze_literals_stamps lits acc :
  ∃ m, (foldl analyze_literal acc lits).1.1 = set_stamped (λ _, m) acc.1.1.
Proof.
  revert acc. induction lits as [|l lits IH]; intros acc; simpl.
  - destruct acc as [[[] ?] ?]. by eexists.
  - destruct (IH (analyze_literal acc l)) as [m ->].
    destruct (analyze_literal_stamps acc l) as [m' ->]. by exists m.
Qed.

Lemma resolve_stamps n st current lower n' st' current' lower' :
  resolve n st current lower = Some (n', st', current', lower') →
  ∃ m, st' = set_stamped (λ _, m) st.
Proof.
  revert st current lower.
  induction n as [|k IH]; intros st current lower; simpl.
  - destruct (1 <? current); [done|]. intros [= _ <- _ _].
    destruct st. by eexists.
  - destruct (1 <? current);
      [|intros [= _ <- _ _]; destruct st; by eexists].
    destruct (trail st !! k) as [lit|]; [|done].
    destruct (_ =? _); [|by apply IH].
    destruct (reason_of st (Z.abs lit)) as [r|]; [|by apply IH].
    destruct (analyze_literals_stamps (clause_literals st r)
                (st, current, lower)) as [m Hm].
    destruct (foldl _ _ _) as [[st1 c1] l1]. simpl in Hm. subst st1.
    intros Hr. apply IH in Hr as [m' ->]. by eexists.
Qed.

Lemma analyze_conflict_stamps h st st' uip learned backjump :
  analyze_conflict h st = Some (st', uip, learned, backjump) →
  ∃ m, st' = set_stamped (λ _, m) st.
Proof.
  unfold analyze_conflict.
  destruct (analyze_literals_stamps (clause_literals st h) (st, 0, 0))
    as [m Hm].
  destruct (foldl _ _ _) as [[st1 c1] l1]. simpl in Hm. subst st1.
  destruct (resolve _ _ _ _) as [[[[n st2] c2] l2]|] eqn:Hr; [|done].
  apply resolve_stamps in Hr as [m' ->].
  destruct (skip _ _) as [k|]; [|done].
  destruct (_ !! k) as [u|]; [|done].
  destruct (collect _ _ _ _ _) as [[le b]|]; [|done].
  intros [= <- _ _ _]. by eexists.
Qed.

Lemma learn_evolves uip learned backjump st st' :
  learn uip learned backjump st = Some st' → evolves st st'.
Proof.
  unfold learn.
  destruct (backtrack backjump st) as [st1|] eqn:Hb; [|done].
  apply backtrack_evolves in Hb.
  set (ls := minimize st learned ++ [- uip]).
  set (X := if (1 <? length ls)%nat
            then let '(s, h) := add_clause ls st1 in assign (- uip) (Some h) s
            else assign (- uip) None st1).
  assert (HX : evolves st1 X).
  { subst X. destruct (1 <? length ls)%nat; [|apply ev_assign].
    pose proof (add_clause_evolves ls st1) as Ha.
    destruct (add_clause ls st1) as [st2 h].
    exact (ev_trans _ _ _ Ha (ev_assign _ _ _)). }
  intros [= <-].
  apply (ev_trans _ _ _ Hb). apply (ev_trans _ _ _ HX).
  destruct (_ <? _); [by apply ev_frame|apply evolves_refl].
Qed.

Lemma analyze_evolves h st st' : analyze h st = Some st' → evolves st st'.
Proof.
  unfold analyze.
  destruct (analyze_conflict h st) as [[[[st1 uip] learned] bj]|] eqn:Ha;
    [|done].
  apply analyze_conflict_stamps in Ha as [m ->].
  intros Hl. apply learn_evolves in Hl.
  eapply ev_trans; [|exact Hl]. by apply ev_frame.
Qed.

Lemma reachable_evolves st : reachable st → ∃ n lim, evolves (initialize n lim) st.
Proof.
  induction 1 as [n lim|st lits _ _ (n & lim & IH)|st st' r _ (n & lim & IH) Hp
                 |st st' _ (n & lim & IH) Hd|st h st' _ (n & lim & IH) Ha
                 |st l st' _ (n & lim & IH) Hb]; exists n, lim.
  - apply evolves_refl.
  - eapply ev_trans; [exact IH|apply add_clause_evolves].
  - eapply ev_trans; [exact IH|by eapply propagate_evolves].
  - eapply ev_trans; [exact IH|by apply decide_evolves].
  - eapply ev_trans; [exact IH|by eapply analyze_evolves].
  - eapply ev_trans; [exact IH|by eapply backtrack_evolves].
Qed.

Lemma sign_consistent_initialize n lim : sign_consistent (initialize n lim).
Proof. intros l _. left. by unfold value. Qed.


(** ** The clause store *)

Lemma alter_snoc {A} (f : A → A) (l : list A) (x : A) :
  alter f (length l) (l ++ [x]) = l ++ [f x].
Proof. induction l as [|y l IH]; simpl; [done|]. by f_equal. Qed.

Lemma lookup_snoc {A} (l : list A) (x : A) : (l ++ [x]) !! length l = Some x.
Proof. by rewrite lookup_app_r, Nat.sub_diag. Qed.

Lemma connect_all_fold ls h s :
  foldl (λ s lit, connect_literal lit h s) s ls
  = set_matrix (connect_all ls h) s.
Proof.
  unfold connect_all. revert s. induction ls as [|l ls IH]; intros s; simpl.
  - by destruct s.
  - rewrite IH. by destruct s.
Qed.

Lemma store_clause_eq w1 w2 lits st :
  store_clause w1 w2 lits st =
    set_matrix (connect_all lits (length (clauses st)))
      (set_clauses (λ cs, cs ++ [mkClause lits w1 w2 0])
         (set_added (λ a, a + 1) st)).
Proof. unfold store_clause. apply connect_all_fold. Qed.

(** Two states with the same fields are the same state. *)
Lemma state_ext (a b : State) :
  variables a = variables b →
  values a = values b →
  levels a = levels b →
  reasons a = reasons b →
  stamped a = stamped b →
  clauses a = clauses b →
  matrix a = matrix b →
  watched a = watched b →
  empty_clause a = empty_clause b →
  trail a = trail b →
  propagated a = propagated b →
  control a = control b →
  level a = level b →
  limit a = limit b →
  added a = added b →
  conflicts a = conflicts b →
  backjumps a = backjumps b →
  decisions a = decisions b →
  propagations a = propagations b →
  fixed a = fixed b →
  searched a = searched b →
  a = b.
Proof. destruct a, b; simpl; intros; by subst. Qed.

Ltac fields := cbn -[alter lookup app insert delete filter take drop].

Ltac state_eq := apply state_ext; fields; try reflexivity.

(** [add_clause] on an empty clause. *)
Lemma add_clause_empty st :
  add_clause [] st =
    (set_empty_clause (λ _, Some (length (clauses st)))
       (set_clauses (λ cs, cs ++ [mkClause [] 0 0 0])
          (set_added (λ a, a + 1) st)), length (clauses st)).
Proof.
  unfold add_clause, add_clause_at. rewrite store_clause_eq.
  unfold special_case, init_watches, connect_watch, init_blocker, connect_all.
  fields. rewrite lookup_snoc. fields. rewrite lookup_snoc. fields.
  f_equal. state_eq. by rewrite alter_snoc.
Qed.

(** [add_clause] on a unit clause: the state before the watches are looked
    at is [special_case] on the stored clause. *)
Lemma add_clause_unit u st :
  add_clause [u] st =
    (special_case [u] (length (clauses st))
       (set_matrix (push_back u (length (clauses st)))
          (set_clauses (λ cs, cs ++ [mkClause [u] 0 0 u])
             (set_added (λ a, a + 1) st))), length (clauses st)).
Proof.
  unfold add_clause, add_clause_at. rewrite store_clause_eq.
  assert (Hcl : ∀ s, clauses (special_case [u] (length (clauses st)) s)
                     = clauses s).
  { intros s. unfold special_case, assign.
    repeat match goal with |- context [if ?b then _ else _] =>
      destruct b end; reflexivity. }
  set (s1 := special_case _ _ _).
  assert (Hs1 : clauses s1 = clauses st ++ [mkClause [u] 0 0 0])
    by (subst s1; by rewrite Hcl).
  unfold init_watches, connect_watch, init_blocker.
  rewrite Hs1, lookup_snoc. cbn [from_option watch1 watch2 nth].
  rewrite Z.eqb_refl, Hs1, lookup_snoc. cbn [from_option watch1 watch2].
  rewrite Z.eqb_refl. f_equal. subst s1.
  unfold special_case, value, assign, connect_all. fields.
  repeat match goal with |- context [if ?b then _ else _] =>
    destruct b end; state_eq; by rewrite alter_snoc.
Qed.

(** [add_clause] on a clause of two literals or more. *)
Lemma add_clause_watched l0 l1 lits st :
  l0 ≠ 0 → l1 ≠ 0 →
  add_clause (l0 :: l1 :: lits) st =
    (set_watched (push_back l1 (length (clauses st)))
       (set_watched (push_back l0 (length (clauses st)))
          (set_matrix (connect_all (l0 :: l1 :: lits) (length (clauses st)))
             (set_clauses (λ cs, cs ++ [mkClause (l0 :: l1 :: lits) l0 l1 l0])
                (set_added (λ a, a + 1) st)))), length (clauses st)).
Proof.
  intros H0 H1. unfold add_clause, add_clause_at. rewrite store_clause_eq.
  unfold special_case, init_watches, connect_watch, init_blocker.
  fields. rewrite !alter_snoc, !lookup_snoc. fields.
  destruct (Z.eqb_spec l0 0); [done|]. fields.
  rewrite !alter_snoc, !lookup_snoc. fields.
  destruct (Z.eqb_spec l1 0); [done|]. f_equal. state_eq.
  by rewrite !alter_snoc.
Qed.

(** [add_clause] where the fresh memory reads as zero, by the size of the
    clause.  Size 0: the clause is recorded as the empty clause found, and
    neither the assignment nor the watch index changes.  Size 1: nothing is
    watched; an unassigned unit is assigned at the current level without a
    reason, a false unit is recorded as the empty clause found and the
    assignment stays, a true unit changes neither.  Size 2 or more: the
    watches of the new clause are its first two literals and its handle is
    appended to their two watch lists, the assignment and the empty-clause
    record stay. *)
Lemma add_clause_zeroed_effects (st : State) (lits : list Z) :
  nonzero lits →
  let st' := (add_clause lits st).1 in
  let h := length (clauses st) in
  (add_clause lits st).2 = h ∧
  match lits with
  | [] =>
      empty_clause st' = Some h ∧ values st' = values st
      ∧ trail st' = trail st ∧ watched st' = watched st
  | [unit] =>
      watched st' = watched st
      ∧ (value st unit = 0 →
           values st' = <[- unit := -1]> (<[unit := 1]> (values st))
           ∧ trail st' = trail st ++ [unit]
           ∧ level_of st' (Z.abs unit) = level st
           ∧ reason_of st' (Z.abs unit) = None
           ∧ empty_clause st' = empty_clause st)
      ∧ (value st unit < 0 →
           empty_clause st' = Some h ∧ values st' = values st
           ∧ trail st' = trail st)
      ∧ (0 < value st unit →
           empty_clause st' = empty_clause st ∧ values st' = values st
           ∧ trail st' = trail st)
  | l0 :: l1 :: _ =>
      (∃ c, clauses st' !! h = Some c ∧ literals c = lits
            ∧ watch1 c = l0 ∧ watch2 c = l1)
      ∧ watched st' = push_back l1 h (push_back l0 h (watched st))
      ∧ values st' = values st ∧ trail st' = trail st
      ∧ empty_clause st' = empty_clause st
  end.
Proof.
  intros Hnz st' h. subst st' h.
  destruct lits as [|l0 [|l1 lits]].
  - rewrite add_clause_empty. simpl. done.
  - rewrite add_clause_unit. cbn [fst snd]. split; [done|].
    unfold special_case.
    match goal with |- context [value ?b l0 =? 0] =>
      change (value b l0) with (value st l0) end.
    destruct (Z.eqb_spec (value st l0) 0) as [Hz|Hz];
      [|destruct (Z.ltb_spec (value st l0) 0) as [Hn|Hp]].
    + split; [unfold assign; simpl; by destruct (level st =? 0)|].
      split; [|lia]. intros _. unfold assign, level_of, reason_of. simpl.
      destruct (level st =? 0); simpl;
        rewrite lookup_insert_eq, lookup_delete_eq; done.
    + simpl. repeat split; intros; try done; lia.
    + simpl. repeat split; intros; try done; lia.
  - apply Forall_cons in Hnz as [H0 Hnz]. apply Forall_cons in Hnz as [H1 _].
    rewrite add_clause_watched by done. cbn [fst snd]. split; [done|].
    split; [|done]. simpl. rewrite lookup_snoc. by eexists.
Qed.

(** ** [add_clause] on memory that was never written *)

Lemma add_clause_at_long w1 w2 b0 l0 l1 lits st :
  add_clause_at w1 w2 b0 (l0 :: l1 :: lits) st
  = add_clause (l0 :: l1 :: lits) st.
Proof.
  unfold add_clause, add_clause_at. rewrite !store_clause_eq.
  unfold special_case, init_watches.
  match goal with |- context [upd_clause ?h ?f (set_matrix ?g (set_clauses ?a ?s))] =>
    assert (Heq : upd_clause h f (set_matrix g (set_clauses a s))
             = upd_clause h f (set_matrix g
                 (set_clauses (λ cs, cs ++ [mkClause (l0 :: l1 :: lits) 0 0 0]) s)))
      by (state_eq; by rewrite !alter_snoc)
  end.
  rewrite Heq. reflexivity.
Qed.

Lemma add_clause_at_short w1 w2 b0 lits st :
  (length lits ≤ 1)%nat →
  add_clause_at w1 w2 b0 lits st =
    (set_watched
       (λ m, push_watch w2 (length (clauses st))
               (push_watch w1 (length (clauses st)) m))
       (upd_clause (length (clauses st))
          (λ c, mkClause (literals c) w1 w2 (nth 0 lits b0))
          (add_clause lits st).1), length (clauses st)).
Proof.
  intros Hlen. destruct lits as [|u [|? ?]]; [| |simpl in Hlen; lia].
  - rewrite add_clause_empty. cbn [fst].
    unfold add_clause_at. rewrite store_clause_eq.
    unfold special_case, init_watches, connect_watch, init_blocker,
      connect_all, push_watch.
    fields. rewrite lookup_snoc. fields.
    destruct (w1 =? 0); fields; rewrite lookup_snoc; fields;
      destruct (w2 =? 0); f_equal; state_eq; by rewrite !alter_snoc.
  - rewrite add_clause_unit. cbn [fst].
    unfold add_clause_at. rewrite store_clause_eq.
    assert (Hcl : ∀ s, clauses (special_case [u] (length (clauses st)) s)
                       = clauses s).
    { intros s. unfold special_case, assign.
      repeat match goal with |- context [if ?b then _ else _] =>
        destruct b end; reflexivity. }
    set (s1 := special_case _ _ (set_matrix _ (set_clauses (λ cs, cs ++ [mkClause [u] w1 w2 0]) _))).
    assert (Hs1 : clauses s1 = clauses st ++ [mkClause [u] w1 w2 0])
      by (subst s1; by rewrite Hcl).
    unfold init_watches, connect_watch, init_blocker, push_watch.
    rewrite Hs1, lookup_snoc. cbn [from_option watch1 watch2 nth].
    destruct (w1 =? 0).
    + rewrite Hs1, lookup_snoc. cbn [from_option watch1 watch2].
      destruct (w2 =? 0); f_equal; subst s1;
      unfold special_case, value, assign, connect_all; fields;
      repeat match goal with |- context [if ?b then _ else _] =>
        destruct b end; state_eq; by rewrite !alter_snoc.
    + change (clauses (set_watched _ s1)) with (clauses s1).
      rewrite Hs1, lookup_snoc. cbn [from_option watch1 watch2].
      destruct (w2 =? 0); f_equal; subst s1;
      unfold special_case, value, assign, connect_all; fields;
      repeat match goal with |- context [if ?b then _ else _] =>
        destruct b end; state_eq; by rewrite !alter_snoc.
Qed.

Lemma occs_push_watch_length w h m l :
  (length (occs m l) ≤ length (occs (push_watch w h m) l))%nat.
Proof.
  unfold push_watch, push_back, occs. destruct (w =? 0); [done|].
  destruct (Z.eq_dec w l) as [->|Hne].
  - rewrite lookup_insert_eq. simpl. rewrite length_app. lia.
  - by rewrite lookup_insert_ne.
Qed.

Lemma occs_push_watch_same w h m :
  w ≠ 0 → occs (push_watch w h m) w = occs m w ++ [h].
Proof.
  intros Hw. unfold push_watch, push_back. destruct (Z.eqb_spec w 0); [done|].
  unfold occs at 1. by rewrite lookup_insert_eq.
Qed.

Lemma watched_add_clause_short lits st :
  (length lits ≤ 1)%nat → watched (add_clause lits st).1 = watched st.
Proof.
  intros Hlen. destruct lits as [|u [|? ?]]; [| |simpl in Hlen; lia].
  - by rewrite add_clause_empty.
  - rewrite add_clause_unit. cbn [fst]. unfold special_case, assign.
    repeat match goal with |- context [if ?b then _ else _] =>
      destruct b end; reflexivity.
Qed.

Lemma clauses_add_clause_short lits st :
  (length lits ≤ 1)%nat →
  clauses (add_clause lits st).1
  = clauses st ++ [mkClause lits 0 0 (nth 0 lits 0)].
Proof.
  intros Hlen. destruct lits as [|u [|? ?]]; [| |simpl in Hlen; lia].
  - by rewrite add_clause_empty.
  - rewrite add_clause_unit. cbn [fst]. unfold special_case, assign.
    repeat match goal with |- context [if ?b then _ else _] =>
      destruct b end; reflexivity.
Qed.

(** C8 fails on the code for an empty and for a unit clause.  The clause is
    allocated as raw bytes, so its [watch1] and [watch2] hold what the
    memory held, [w1] and [w2], taken here inside the array [watched].
    [add_clause] leaves them in the clause and appends the new handle to
    [watched[w1]] when [w1] is not 0 and to [watched[w2]] when [w2] is not
    0: unless both read as 0 the watch index changes, which is no effect
    that the claim lists for these sizes. *)
Theorem add_clause_watches_short w1 w2 b0 lits st :
  (length lits ≤ 1)%nat →
  inside (variables st) w1 → inside (variables st) w2 →
  let st' := (add_clause_at w1 w2 b0 lits st).1 in
  let h := length (clauses st) in
  (∃ c, clauses st' !! h = Some c ∧ literals c = lits
        ∧ watch1 c = w1 ∧ watch2 c = w2)
  ∧ watched st' = push_watch w2 h (push_watch w1 h (watched st))
  ∧ (w1 ≠ 0 → h ∈ watches st' w1)
  ∧ (w2 ≠ 0 → h ∈ watches st' w2)
  ∧ (w1 ≠ 0 ∨ w2 ≠ 0 → watched st' ≠ watched st).
Proof.
  intros Hlen _ _ st' h. subst st' h.
  rewrite add_clause_at_short by done. cbn [fst].
  set (h := length (clauses st)).
  assert (Hw : watched (set_watched (λ m, push_watch w2 h (push_watch w1 h m))
                 (upd_clause h
                    (λ c, mkClause (literals c) w1 w2 (nth 0 lits b0))
                    (add_clause lits st).1))
               = push_watch w2 h (push_watch w1 h (watched st))).
  { change (watched (set_watched ?f (upd_clause _ _ ?s))) with (f (watched s)).
    cbv beta. by rewrite watched_add_clause_short. }
  split.
  { change (clauses (set_watched _ (upd_clause ?a ?f ?s)))
      with (alter f a (clauses s)).
    rewrite clauses_add_clause_short by done. subst h.
    rewrite alter_snoc, lookup_snoc. by eexists. }
  split; [exact Hw|]. unfold watches. rewrite Hw.
  fold (occs (push_watch w2 h (push_watch w1 h (watched st))) w1).
  fold (occs (push_watch w2 h (push_watch w1 h (watched st))) w2).
  split.
  { intros H1. destruct (Z.eq_dec w2 0) as [->|H2].
    - unfold push_watch at 1. simpl. rewrite occs_push_watch_same by done.
      apply elem_of_app. right. by left.
    - destruct (Z.eq_dec w1 w2) as [->|Hne].
      + rewrite occs_push_watch_same by done. apply elem_of_app. right.
        by left.
      + unfold push_watch at 1, push_back. destruct (Z.eqb_spec w2 0); [done|].
        unfold occs at 1. rewrite lookup_insert_ne by done.
        fold (occs (push_watch w1 h (watched st)) w1).
        rewrite occs_push_watch_same by done. apply elem_of_app. right.
        by left. }
  split.
  { intros H2. rewrite occs_push_watch_same by done. apply elem_of_app.
    right. by left. }
  intros Hor Heq.
  assert (Hl : ∀ l, length (occs (push_watch w2 h (push_watch w1 h (watched st))) l)
                    = length (occs (watched st) l)).
  { intros l. by rewrite Heq. }
  destruct (Z.eq_dec w2 0) as [->|H2].
  - destruct Hor as [H1|]; [|done]. specialize (Hl w1).
    unfold push_watch at 1 in Hl. simpl in Hl.
    rewrite occs_push_watch_same, length_app in Hl by done. simpl in Hl. lia.
  - specialize (Hl w2). rewrite occs_push_watch_same, length_app in Hl by done.
    pose proof (occs_push_watch_length w1 h (watched st) w2). simpl in Hl. lia.
Qed.

Lemma add_clause_watches_short_witness :
  (length [2] ≤ 1)%nat
  ∧ inside 5 5 ∧ inside 5 0
  ∧ watches (initialize 5 no_limit) 5 = []
  ∧ watches (add_clause_at 5 0 0 [2] (initialize 5 no_limit)).1 5 = [0%nat]
  ∧ 0%nat ∈ watches (add_clause_at 5 0 0 [2] (initialize 5 no_limit)).1 5.
Proof.
  assert (Hlen : (length [2] ≤ 1)%nat) by (simpl; lia).
  assert (H5 : inside 5 5) by (unfold inside; lia).
  assert (H0 : inside 5 0) by (unfold inside; lia).
  split; [exact Hlen|]. split; [exact H5|]. split; [exact H0|].
  split; [reflexivity|]. split; [vm_compute; reflexivity|].
  exact (proj1 (proj2 (proj2
           (add_clause_watches_short 5 0 0 [2] (initialize 5 no_limit)
              Hlen H5 H0))) ltac:(lia)).
Defined.

(** X22: on a clause of two literals or more [add_clause] does the same
    whatever the fresh memory holds.  The clause is stored under the next
    handle with its first two literals as watches and the first as blocker,
    the handle is appended to the watch lists of these two literals and to
    the occurrence list of every literal, [added] counts it, and the
    assignment, the trail, the control stack and the empty-clause record
    stay as they are. *)
Theorem add_clause_long_effects w1 w2 b0 l0 l1 rest st :
  l0 ≠ 0 → l1 ≠ 0 →
  let lits := l0 :: l1 :: rest in
  let st' := (add_clause_at w1 w2 b0 lits st).1 in
  let h := length (clauses st) in
  (add_clause_at w1 w2 b0 lits st).2 = h
  ∧ clauses st' = clauses st ++ [mkClause lits l0 l1 l0]
  ∧ watched st' = push_back l1 h (push_back l0 h (watched st))
  ∧ matrix st' = connect_all lits h (matrix st)
  ∧ added st' = added st + 1
  ∧ values st' = values st ∧ levels st' = levels st
  ∧ reasons st' = reasons st ∧ trail st' = trail st
  ∧ control st' = control st ∧ level st' = level st
  ∧ propagated st' = propagated st ∧ fixed st' = fixed st
  ∧ empty_clause st' = empty_clause st.
Proof.
  intros H0 H1 lits st' h. subst lits st' h.
  rewrite add_clause_at_long, add_clause_watched by done. cbn [fst snd].
  repeat (split; [reflexivity|]). reflexivity.
Qed.

Lemma add_clause_long_effects_witness :
  1 ≠ 0 ∧ -2 ≠ 0
  ∧ watched (add_clause_at 7 (-9) 4 [1; -2; 3] (initialize 3 100)).1
    = push_back (-2) 0 (push_back 1 0 ∅).
Proof.
  assert (H1 : 1 ≠ 0) by lia. assert (H2 : -2 ≠ 0) by lia.
  split; [exact H1|]. split; [exact H2|].
  pose proof (add_clause_long_effects 7 (-9) 4 1 (-2) [3] (initialize 3 100)
                H1 H2) as H.
  cbv zeta in H. exact (proj1 (proj2 (proj2 H))).
Defined.

(** ** What the fresh memory reaches *)

Lemma fmap_alter_same {A B} (f : A → B) (g : A → A) (l : list A) i :
  (∀ x, f (g x) = f x) → f <$> alter g i l = f <$> l.
Proof.
  intros H. revert i. induction l as [|x l IH]; intros [|i]; simpl; try done.
  - by rewrite H.
  - f_equal. apply IH.
Qed.

(** The fresh memory of a clause reaches its watches, its blocker and the
    watch index only. *)
Lemma unwatched_add_clause_at w1 w2 b0 lits st :
  unwatched (add_clause_at w1 w2 b0 lits st).1
  = unwatched (add_clause lits st).1.
Proof.
  destruct lits as [|l0 [|l1 lits]]; [| |by rewrite add_clause_at_long];
    rewrite add_clause_at_short by (simpl; lia); cbn [fst];
    unfold unwatched; state_eq;
    by rewrite fmap_alter_same.
Qed.

Lemma value_unwatched st l : value (unwatched st) l = value st l.
Proof. done. Qed.

Lemma unwatched_add_clause_inner lits st :
  unwatched (add_clause lits st).1
  = unwatched (add_clause lits (unwatched st)).1.
Proof.
  destruct lits as [|l0 [|l1 lits]].
  - rewrite !add_clause_empty. cbn [fst]. unfold unwatched. fields.
    rewrite length_fmap. state_eq. by rewrite !fmap_app, <- !list_fmap_compose.
  - rewrite !add_clause_unit. cbn [fst]. unfold special_case.
    change (value (set_matrix ?f (set_clauses ?g (set_added ?k ?s))) l0)
      with (value s l0).
    rewrite value_unwatched.
    destruct (value st l0 =? 0); [|destruct (value st l0 <? 0)];
      unfold assign, unwatched; fields;
      repeat match goal with |- context [if level st =? 0 then _ else _] =>
        destruct (level st =? 0) end;
      rewrite ?length_fmap; state_eq;
      by rewrite !fmap_app, <- !list_fmap_compose.
  - unfold add_clause, add_clause_at. cbn [fst]. rewrite !store_clause_eq.
    unfold special_case, init_watches, connect_watch, init_blocker,
      connect_all.
    fields. rewrite !alter_snoc, !lookup_snoc. fields.
    destruct (l0 =? 0); fields; rewrite ?alter_snoc, ?lookup_snoc; fields;
      destruct (l1 =? 0); unfold unwatched; fields;
      rewrite ?length_fmap; state_eq;
      rewrite !fmap_alter_same by done;
      by rewrite !fmap_app, <- !list_fmap_compose.
Qed.

Lemma unwatched_add_clause lits a b :
  unwatched a = unwatched b →
  unwatched (add_clause lits a).1 = unwatched (add_clause lits b).1.
Proof.
  intros H.
  by rewrite (unwatched_add_clause_inner lits a),
    (unwatched_add_clause_inner lits b), H.
Qed.

Lemma unwatched_parse_from mem cnf a b :
  unwatched a = unwatched b →
  unwatched (foldl (λ st lits,
               let f := mem (length (clauses st)) in
               (add_clause_at (fresh_watch1 f) (fresh_watch2 f)
                  (fresh_behind f) lits st).1) a cnf)
  = unwatched (foldl (λ st lits, (add_clause lits st).1) b cnf).
Proof.
  revert a b. induction cnf as [|lits cnf IH]; intros a b H; [done|].
  cbn [foldl]. apply IH. cbv zeta. rewrite unwatched_add_clause_at.
  by apply unwatched_add_clause.
Qed.

(** ** The scan of a clause in [propagate] *)

Lemma blocker_only_refl h s : blocker_only h s s.
Proof.
  split; [exists (clauses s); by destruct s|]. split; [done|].
  intros c Hc. exists (blocker c). rewrite Hc. by destruct c.
Qed.

Lemma blocker_only_trans h s1 s2 s3 :
  blocker_only h s1 s2 → blocker_only h s2 s3 → blocker_only h s1 s3.
Proof.
  intros ([cs1 ->] & Ho1 & Hh1) ([cs2 ->] & Ho2 & Hh2).
  split; [by exists cs2|]. split.
  - intros h' Hne. by rewrite Ho2, Ho1.
  - intros c Hc. destruct (Hh1 c Hc) as [b1 Hb1].
    destruct (Hh2 _ Hb1) as [b2 Hb2]. exists b2. by rewrite Hb2.
Qed.

Lemma blocker_only_bump h s o :
  blocker_only h s
    (if value s o =? 1 then upd_clause h (set_blocker o) s else s).
Proof.
  destruct (_ =? 1); [|apply blocker_only_refl].
  split; [by eexists|]. split.
  - intros h' Hne. simpl. by rewrite list_lookup_alter_ne.
  - intros c Hc. exists o. simpl. by rewrite list_lookup_alter_eq, Hc.
Qed.

Lemma value_set_clauses f s l : value (set_clauses f s) l = value s l.
Proof. done. Qed.

(** Once a new watch is found the scan only moves the blocker. *)
Lemma scan_done lit h check ls s :
  ∃ s', foldl (scan_step lit h check) (s, true) ls = (s', true)
        ∧ blocker_only h s s'.
Proof.
  revert s. induction ls as [|o ls IH]; intros s; simpl.
  - exists s. split; [done|apply blocker_only_refl].
  - destruct (IH (if value s o =? 1 then upd_clause h (set_blocker o) s
                  else s)) as (s' & Hs' & Hb).
    exists s'. split; [done|].
    eapply blocker_only_trans; [apply blocker_only_bump|exact Hb].
Qed.

Lemma replaces_blocker_only h s s' w1 w2 o :
  blocker_only h s s' → replaces s' w1 w2 o = replaces s w1 w2 o.
Proof. by intros ([cs ->] & _). Qed.

Lemma move_watch_spec lit h check o c s :
  clauses s !! h = Some c →
  ∃ c', clauses (move_watch lit h check o c s) !! h = Some c'
        ∧ literals c' = literals c ∧ blocker c' = blocker c
        ∧ watch2 c' = (if check =? watch1 c then o else watch2 c)
        ∧ watch1 c' = (if check =? watch2 c' then o else watch1 c)
        ∧ watched (move_watch lit h check o c s)
          = push_back o h (<[- lit := erase_all h (occs (watched s) (- lit))]>
                             (watched s))
        ∧ (∀ h', h' ≠ h →
             clauses (move_watch lit h check o c s) !! h' = clauses s !! h')
        ∧ ∃ cs ws, move_watch lit h check o c s = with_store cs ws s.
Proof.
  intros Hc. unfold move_watch.
  destruct (check =? watch1 c) eqn:E1.
  - cbn [clauses upd_clause set_clauses set_watched].
    rewrite list_lookup_alter_eq, Hc.
    cbn [fmap option_fmap option_map from_option watch2 set_watch2].
    destruct (check =? o) eqn:E2.
    + eexists. cbn [clauses upd_clause set_clauses set_watched watched].
      rewrite !list_lookup_alter_eq, Hc. split; [reflexivity|].
      cbn [literals blocker watch1 watch2 set_watch1 set_watch2].
      rewrite E2. repeat split.
      * intros h' Hne. by rewrite !list_lookup_alter_ne.
      * by eexists _, _.
    + eexists. cbn [clauses upd_clause set_clauses set_watched watched].
      rewrite !list_lookup_alter_eq, Hc. split; [reflexivity|].
      cbn [literals blocker watch1 watch2 set_watch1 set_watch2].
      rewrite E2. repeat split.
      * intros h' Hne. by rewrite !list_lookup_alter_ne.
      * by eexists _, _.
  - cbn [clauses set_watched]. rewrite Hc. cbn [from_option].
    destruct (check =? watch2 c) eqn:E2.
    + eexists. cbn [clauses upd_clause set_clauses set_watched watched].
      rewrite !list_lookup_alter_eq, Hc. split; [reflexivity|].
      cbn [literals blocker watch1 watch2 set_watch1 set_watch2].
      rewrite E2. repeat split.
      * intros h' Hne. by rewrite !list_lookup_alter_ne.
      * by eexists _, _.
    + exists c. cbn [clauses set_watched watched]. rewrite E2.
      repeat split; try done. by eexists _, _.
Qed.

(** The scan from its start: what it leaves when the clause has a
    replacement for the watch, and when it has none. *)
Lemma scan_spec lit h check ls s c :
  clauses s !! h = Some c →
  ∃ s' c',
    foldl (scan_step lit h check) (s, false) ls
      = (s', match List.find (replaces s (watch1 c) (watch2 c)) ls with
             | Some _ => true
             | None => false
             end)
    ∧ (∃ cs ws, s' = with_store cs ws s)
    ∧ (∀ h', h' ≠ h → clauses s' !! h' = clauses s !! h')
    ∧ clauses s' !! h = Some c' ∧ literals c' = literals c
    ∧ match List.find (replaces s (watch1 c) (watch2 c)) ls with
      | Some x =>
          watched s' = push_back x h
                         (<[- lit := erase_all h (occs (watched s) (- lit))]>
                            (watched s))
          ∧ watch2 c' = (if check =? watch1 c then x else watch2 c)
          ∧ watch1 c' = (if check =? watch2 c' then x else watch1 c)
      | None => watched s' = watched s
                ∧ watch1 c' = watch1 c ∧ watch2 c' = watch2 c
      end.
Proof.
  revert s c. induction ls as [|o ls IH]; intros s c Hc.
  - exists s, c. simpl. repeat split; try done.
    exists (clauses s), (watched s). by destruct s.
  - cbn [foldl List.find].
    pose proof (blocker_only_bump h s o) as Hb.
    unfold scan_step at 2.
    set (s1 := if value s o =? 1 then upd_clause h (set_blocker o) s else s)
      in *.
    destruct Hb as ([cs1 Hs1] & Ho1 & Hh1).
    destruct (Hh1 c Hc) as [b Hb]. rewrite Hb.
    change ((-1 <? value s1 o) && negb (watch1 (set_blocker b c) =? o)
            && negb (watch2 (set_blocker b c) =? o))
      with (replaces s1 (watch1 c) (watch2 c) o).
    assert (Hrep : ∀ x, replaces s1 (watch1 c) (watch2 c) x
                        = replaces s (watch1 c) (watch2 c) x)
      by (intros x; by rewrite Hs1).
    assert (Hw : watched s1 = watched s) by (by rewrite Hs1).
    rewrite Hrep.
    destruct (replaces s (watch1 c) (watch2 c) o) eqn:Ho.
    + (* the new watch is [o] *)
      destruct (move_watch_spec lit h check o _ s1 Hb)
        as (c2 & Hc2 & Hl2 & _ & Hw2 & Hw1 & Hwd & Hoth & cs2 & ws2 & Hfr).
      destruct (scan_done lit h check ls
                  (move_watch lit h check o (set_blocker b c) s1))
        as (s' & -> & [cs' Hs'] & Ho' & Hh').
      destruct (Hh' c2 Hc2) as [b' Hb'].
      exists s', (set_blocker b' c2).
      split; [done|]. split.
      { rewrite Hs', Hfr, Hs1. by eexists _, _. }
      split.
      { intros h' Hne. rewrite Ho', Hoth by done. by apply Ho1. }
      split; [done|]. split; [done|].
      split; [|done].
      rewrite Hs'. cbn [watched set_clauses]. by rewrite Hwd, Hw.
    + (* no new watch here: go on with the rest *)
      destruct (IH s1 (set_blocker b c) Hb)
        as (s' & c' & Hf & Hfr & Hoth & Hc' & Hl' & Hm).
      exists s', c'.
      assert (Hfind : List.find (replaces s1 (watch1 (set_blocker b c))
                                   (watch2 (set_blocker b c))) ls
                      = List.find (replaces s (watch1 c) (watch2 c)) ls).
      { clear -Hrep. induction ls as [|x ls IHls]; simpl; [done|].
        change (watch1 (set_blocker b c)) with (watch1 c).
        change (watch2 (set_blocker b c)) with (watch2 c).
        rewrite Hrep. by destruct (replaces s _ _ x). }
      rewrite Hfind in Hf, Hm. split; [exact Hf|]. split.
      { destruct Hfr as (cs & ws & ->). rewrite Hs1. by eexists _, _. }
      split; [intros h' Hne; rewrite Hoth by done; by apply Ho1|].
      split; [done|]. split; [done|].
      rewrite Hw in Hm. exact Hm.
Qed.

Lemma replaces_spec st w1 w2 o :
  replaces st w1 w2 o = true ↔ -1 < value st o ∧ o ≠ w1 ∧ o ≠ w2.
Proof.
  unfold replaces. rewrite !andb_true_iff, !negb_true_iff, !Z.eqb_neq.
  rewrite Z.ltb_lt. split.
  - intros [[? ?] ?]. repeat split; congruence.
  - intros (? & ? & ?). repeat split; congruence.
Qed.

Lemma replacement_Some st c x :
  replacement st c = Some x →
  x ∈ literals c ∧ -1 < value st x ∧ x ≠ watch1 c ∧ x ≠ watch2 c.
Proof.
  intros Hf. apply List.find_some in Hf as [Hin Hr].
  apply replaces_spec in Hr. split; [by apply list_elem_of_In|done].
Qed.

Lemma replacement_None st c x :
  replacement st c = None → x ∈ literals c →
  value st x ≤ -1 ∨ x = watch1 c ∨ x = watch2 c.
Proof.
  intros Hf Hin. apply list_elem_of_In in Hin.
  pose proof (List.find_none _ _ Hf x Hin) as Hr.
  destruct (Z_le_dec (value st x) (-1)); [by left|].
  destruct (Z.eq_dec x (watch1 c)); [by right; left|].
  destruct (Z.eq_dec x (watch2 c)); [by right; right|].
  assert (replaces st (watch1 c) (watch2 c) x = true)
    by (apply replaces_spec; lia).
  congruence.
Qed.

(** The two tests on [check] after the scan store the new watch in the
    position that held [-lit]. *)
Lemma moved_watches lit c x w1' w2' :
  x ≠ watch1 c → x ≠ watch2 c →
  w2' = (if other_watch lit c =? watch1 c then x else watch2 c) →
  w1' = (if other_watch lit c =? w2' then x else watch1 c) →
  (w1', w2') = (if (watch1 c =? - lit) && negb (watch2 c =? - lit)
                then (x, watch2 c) else (watch1 c, x)).
Proof.
  intros H1 H2 -> ->. unfold other_watch.
  destruct (Z.eqb_spec (watch1 c) (- lit)) as [E1|E1]; simpl.
  - destruct (Z.eqb_spec (watch2 c) (- lit)) as [E2|E2]; simpl.
    + rewrite E2, <- E1, Z.eqb_refl.
      destruct (Z.eqb_spec (watch1 c) x); [congruence|done].
    + destruct (Z.eqb_spec (watch2 c) (watch1 c)); [congruence|].
      by rewrite Z.eqb_refl.
  - rewrite Z.eqb_refl. destruct (Z.eqb_spec (watch1 c) x); [congruence|done].
Qed.

(** The visit of a clause, case by case. *)
Lemma visit_spec lit h st c :
  clauses st !! h = Some c →
  (value st (blocker c) = 1 ∨ value st (other_watch lit c) = 1 →
     visit lit h st = (st, None))
  ∧ (value st (blocker c) ≠ 1 → value st (other_watch lit c) ≠ 1 →
     ∃ s c', (∃ cs ws, s = with_store cs ws st)
       ∧ (∀ h', h' ≠ h → clauses s !! h' = clauses st !! h')
       ∧ clauses s !! h = Some c' ∧ literals c' = literals c
       ∧ match replacement st c with
         | Some x =>
             visit lit h st = (s, None)
             ∧ watched s
               = push_back x h
                   (<[- lit := erase_all h (watches st (- lit))]> (watched st))
             ∧ (watch1 c', watch2 c')
               = (if (watch1 c =? - lit) && negb (watch2 c =? - lit)
                  then (x, watch2 c) else (watch1 c, x))
         | None =>
             watched s = watched st
             ∧ watch1 c' = watch1 c ∧ watch2 c' = watch2 c
             ∧ visit lit h st
               = (if value st (other_watch lit c) =? -1
                  then (set_conflicts (λ n, n + 1) s, Some h)
                  else if value st (other_watch lit c) =? 0
                  then (assign (other_watch lit c) (Some h) s, None)
                  else (s, None))
         end).
Proof.
  intros Hc. unfold visit. rewrite Hc. fold (other_watch lit c). split.
  - intros [Hb|Hw].
    + by rewrite Hb.
    + rewrite Hw. by destruct (_ =? 1).
  - intros Hb Hw.
    destruct (Z.eqb_spec (value st (blocker c)) 1) as [|_]; [done|].
    destruct (Z.eqb_spec (value st (other_watch lit c)) 1) as [|_]; [done|].
    destruct (scan_spec lit h (other_watch lit c) (literals c) st c Hc)
      as (s & c' & Hf & Hfr & Hoth & Hc' & Hl' & Hm).
    rewrite Hf. fold (replacement st c) in *.
    exists s, c'. split; [done|]. split; [done|]. split; [done|].
    split; [done|].
    destruct (replacement st c) as [x|] eqn:Hr.
    + destruct Hm as (Hwd & Hw2 & Hw1). split; [done|]. split; [done|].
      apply replacement_Some in Hr as (_ & _ & Hx1 & Hx2).
      by apply moved_watches.
    + destruct Hm as (Hwd & Hw1 & Hw2). split; [done|]. split; [done|].
      split; [done|].
      destruct Hfr as (cs & ws & ->).
      change (value (with_store cs ws st) (other_watch lit c))
        with (value st (other_watch lit c)).
      reflexivity.
Qed.

Lemma watches_push_back_same st w x h :
  watched st = push_back x h w → watches st x = occs w x ++ [h].
Proof.
  intros Hw. unfold watches. rewrite Hw. unfold push_back.
  by rewrite lookup_insert_eq.
Qed.

Lemma watches_push_back_other st w x h l :
  l ≠ x → watched st = push_back x h w → watches st l = occs w l.
Proof.
  intros Hne Hw. unfold watches. rewrite Hw. unfold push_back.
  by rewrite lookup_insert_ne.
Qed.

(** C2, amended.  For a clause [c] taken from [watched[-lit]], with [check]
    its watched literal other than [-lit]: when the blocker or [check] is
    true, nothing changes.  Otherwise, when the clause has a literal that is
    not false and not watched, the first such literal [x] becomes a watch:
    the clause leaves [watched[-lit]], is appended to [watched[x]], and [x]
    is stored in the watched position that held [-lit]; the assignment
    stays.  Otherwise the watches and the watch index stay: a false [check]
    counts a conflict and returns the clause, an unassigned [check] is
    assigned with the clause as reason. *)
Theorem visit_cases (lit : Z) (h : nat) (st : State) (c : Clause) :
  clauses st !! h = Some c →
  let check := other_watch lit c in
  (value st (blocker c) = 1 ∨ value st check = 1 →
     visit lit h st = (st, None))
  ∧ (value st (blocker c) ≠ 1 → value st check ≠ 1 →
     ∀ x, replacement st c = Some x →
       ∃ st' c',
         visit lit h st = (st', None)
         ∧ clauses st' !! h = Some c' ∧ literals c' = literals c
         ∧ (watch1 c', watch2 c')
           = (if (watch1 c =? - lit) && negb (watch2 c =? - lit)
              then (x, watch2 c) else (watch1 c, x))
         ∧ (x ≠ - lit →
              watches st' (- lit) = erase_all h (watches st (- lit))
              ∧ watches st' x = watches st x ++ [h])
         ∧ (∀ l, l ≠ - lit → l ≠ x → watches st' l = watches st l)
         ∧ values st' = values st ∧ trail st' = trail st
         ∧ conflicts st' = conflicts st)
  ∧ (value st (blocker c) ≠ 1 → replacement st c = None →
     (value st check = -1 →
        ∃ st' c',
          visit lit h st = (st', Some h)
          ∧ conflicts st' = conflicts st + 1
          ∧ watched st' = watched st ∧ clauses st' !! h = Some c'
          ∧ watch1 c' = watch1 c ∧ watch2 c' = watch2 c
          ∧ values st' = values st ∧ trail st' = trail st)
     ∧ (value st check = 0 →
        ∃ st' c',
          visit lit h st = (st', None)
          ∧ conflicts st' = conflicts st
          ∧ watched st' = watched st ∧ clauses st' !! h = Some c'
          ∧ watch1 c' = watch1 c ∧ watch2 c' = watch2 c
          ∧ values st' = <[- check := -1]> (<[check := 1]> (values st))
          ∧ trail st' = trail st ++ [check]
          ∧ reason_of st' (Z.abs check) = Some h
          ∧ level_of st' (Z.abs check) = level st)).
Proof.
  intros Hc check. destruct (visit_spec lit h st c Hc) as [H1 H2].
  split; [exact H1|]. split.
  - intros Hb Hw x Hx.
    destruct (H2 Hb Hw) as (s & c' & (cs & ws & Hfr) & _ & Hc' & Hl & Hm).
    rewrite Hx in Hm. destruct Hm as (Hv & Hwd & Hws).
    exists s, c'. repeat split; try done.
    + unfold watches at 1. rewrite Hwd. unfold push_back.
      rewrite lookup_insert_ne by done. by rewrite lookup_insert_eq.
    + rewrite (watches_push_back_same _ _ _ _ Hwd). unfold occs.
      rewrite lookup_insert_ne by done. done.
    + intros l Hl1 Hl2.
      rewrite (watches_push_back_other _ _ _ _ _ Hl2 Hwd). unfold occs.
      by rewrite lookup_insert_ne.
    + by rewrite Hfr.
    + by rewrite Hfr.
    + by rewrite Hfr.
  - intros Hb Hn. split; intros Hv.
    + assert (Hw : value st (other_watch lit c) ≠ 1) by (fold check; lia).
      destruct (H2 Hb Hw) as (s & c' & (cs & ws & Hfr) & _ & Hc' & Hl & Hm).
      rewrite Hn in Hm. destruct Hm as (Hwd & Hw1 & Hw2 & Hvis).
      fold check in Hvis. rewrite Hv in Hvis. simpl in Hvis.
      exists (set_conflicts (λ n, n + 1) s), c'.
      repeat split; try done; by rewrite Hfr.
    + assert (Hw : value st (other_watch lit c) ≠ 1) by (fold check; lia).
      destruct (H2 Hb Hw) as (s & c' & (cs & ws & Hfr) & _ & Hc' & Hl & Hm).
      rewrite Hn in Hm. destruct Hm as (Hwd & Hw1 & Hw2 & Hvis).
      fold check in Hvis. rewrite Hv in Hvis. simpl in Hvis.
      exists (assign check (Some h) s), c'.
      split; [done|]. rewrite Hfr in *. unfold assign, reason_of, level_of.
      destruct (level _ =? 0); cbn -[lookup insert];
        rewrite !lookup_insert_eq; repeat split; try done.
Qed.

Lemma visit_cases_witness :
  ∃ st c,
    blocker_visit = Some st ∧ clauses st !! 1%nat = Some c
    ∧ visit 2 1 st = (st, None).
Proof.
  eexists _, _. split; [vm_compute; reflexivity|].
  split; [vm_compute; reflexivity|].
  eapply visit_cases; [vm_compute; reflexivity|].
  left. vm_compute. reflexivity.
Defined.

(** C2 as stated fails on the blocker.  In the run of [blocker_cnf] the
    clause [-1 -2 4 3] is taken from [watched[-2]] when 2 is propagated; its
    other watch 4 is unassigned, its literal 3 is true and not watched, and
    still the visit leaves the clause in [watched[-2]] with the watch on
    [-2], because the blocker 3 is true. *)
Lemma visit_blocker_keeps_watch :
  ∃ st c,
    blocker_visit = Some st
    ∧ trail st !! 2%nat = Some 2 ∧ propagated st = 3%nat
    ∧ 1%nat ∈ watches st (-2)
    ∧ clauses st !! 1%nat = Some c
    ∧ literals c = [-1; -2; 4; 3] ∧ watch1 c = 4 ∧ watch2 c = -2
    ∧ other_watch 2 c = 4 ∧ value st 4 = 0
    ∧ value st 3 = 1 ∧ 3 ≠ watch1 c ∧ 3 ≠ watch2 c
    ∧ visit 2 1 st = (st, None).
Proof.
  eexists _, _. split; [vm_compute; reflexivity|].
  split; [vm_compute; reflexivity|]. split; [vm_compute; reflexivity|].
  split; [vm_compute; apply list_elem_of_here|].
  split; [vm_compute; reflexivity|].
  repeat split; try (vm_compute; reflexivity); vm_compute; discriminate.
Qed.

(** ** The search driver *)

(** C4. One turn of the driver's loop, by the result of [propagate]: a
    conflict at level 0 returns 20 (unsatisfiable); a conflict at level 1 or
    more runs [analyze] and the loop goes on, with [propagate] again; no
    conflict and a trail of [variables] literals returns 10 (satisfiable);
    no conflict, an incomplete trail and [conflicts >= limit] returns 0
    (unknown); only otherwise [decide] runs, and the loop goes on. *)
Theorem solve_turn (st : State) (fuel : nat) :
  (∀ st1 c, propagate st = Some (st1, Some c) → level st1 = 0 →
     solve_loop (S fuel) st = Some (st1, 20))
  ∧ (∀ st1 c st2, propagate st = Some (st1, Some c) → 1 ≤ level st1 →
       analyze c st1 = Some st2 →
       solve_step st = Some (st2, None)
       ∧ solve_loop (S fuel) st = solve_loop fuel st2)
  ∧ (∀ st1, propagate st = Some (st1, None) →
       Z.of_nat (length (trail st1)) = variables st1 →
       solve_loop (S fuel) st = Some (st1, 10))
  ∧ (∀ st1, propagate st = Some (st1, None) →
       Z.of_nat (length (trail st1)) ≠ variables st1 →
       limit st1 ≤ conflicts st1 →
       solve_loop (S fuel) st = Some (st1, 0))
  ∧ (∀ st1 st2, propagate st = Some (st1, None) →
       Z.of_nat (length (trail st1)) ≠ variables st1 →
       conflicts st1 < limit st1 →
       decide st1 = Some st2 →
       solve_step st = Some (st2, None)
       ∧ solve_loop (S fuel) st = solve_loop fuel st2).
Proof.
  repeat split.
  - intros st1 c Hp Hl. simpl. unfold solve_step. rewrite Hp, Hl. done.
  - unfold solve_step. rewrite H.
    destruct (Z.eqb_spec (level st1) 0); [lia|]. by rewrite H1.
  - simpl. unfold solve_step. rewrite H.
    destruct (Z.eqb_spec (level st1) 0); [lia|]. by rewrite H1.
  - intros st1 Hp Hn. simpl. unfold solve_step, satisfied. rewrite Hp.
    destruct (Z.eqb_spec (Z.of_nat (length (trail st1))) (variables st1));
      done.
  - intros st1 Hp Hn Hl. simpl. unfold solve_step, satisfied. rewrite Hp.
    destruct (Z.eqb_spec (Z.of_nat (length (trail st1))) (variables st1));
      [done|].
    destruct (Z.leb_spec (limit st1) (conflicts st1)); [done|lia].
  - unfold solve_step, satisfied. rewrite H.
    destruct (Z.eqb_spec (Z.of_nat (length (trail st1))) (variables st1));
      [done|].
    destruct (Z.leb_spec (limit st1) (conflicts st1)); [lia|]. by rewrite H2.
  - simpl. unfold solve_step, satisfied. rewrite H.
    destruct (Z.eqb_spec (Z.of_nat (length (trail st1))) (variables st1));
      [done|].
    destruct (Z.leb_spec (limit st1) (conflicts st1)); [lia|]. by rewrite H2.
Qed.

Lemma solve_turn_witness :
  ∃ st1, propagate (parse 1 no_limit [[1]]) = Some (st1, None)
         ∧ Z.of_nat (length (trail st1)) = variables st1
         ∧ solve_loop 1 (parse 1 no_limit [[1]]) = Some (st1, 10).
Proof.
  eexists. split; [vm_compute; reflexivity|]. split; [vm_compute; reflexivity|].
  apply (solve_turn (parse 1 no_limit [[1]]) 0); vm_compute; reflexivity.
Defined.

(** ** Frames of [assign] and [add_clause] *)

Lemma same_control_refl st : same_control st st.
Proof. by repeat split. Qed.

Lemma same_control_trans s1 s2 s3 :
  same_control s1 s2 → same_control s2 s3 → same_control s1 s3.
Proof.
  unfold same_control. intros H1 H2.
  destruct H1 as (?&?&?&?&?&?&?&?&?&?&?), H2 as (?&?&?&?&?&?&?&?&?&?&?).
  repeat split; congruence.
Qed.

Lemma assign_control lit r st : same_control st (assign lit r st).
Proof. unfold assign. destruct (level _ =? 0); by repeat split. Qed.

Lemma store_clause_control lits st : same_control st (store_clause 0 0 lits st).
Proof. rewrite store_clause_eq. by repeat split. Qed.

Lemma special_case_control lits h st :
  same_control st (special_case lits h st).
Proof.
  unfold special_case. destruct lits as [|? [|? ?]]; [by repeat split| |].
  - destruct (_ =? 0); [apply assign_control|].
    destruct (_ <? 0); by repeat split.
  - apply same_control_refl.
Qed.

Lemma init_watches_control lits h st :
  same_control st (init_watches lits h st).
Proof. destruct lits as [|? [|? ?]]; by repeat split. Qed.

Lemma connect_watch_control w h st : same_control st (connect_watch w h st).
Proof. unfold connect_watch. destruct (_ =? 0); by repeat split. Qed.

Lemma add_clause_control lits st : same_control st (add_clause lits st).1.
Proof.
  unfold add_clause, add_clause_at. cbn [fst].
  eapply same_control_trans; [apply store_clause_control|].
  eapply same_control_trans; [apply special_case_control|].
  eapply same_control_trans; [apply init_watches_control|].
  eapply same_control_trans; [apply connect_watch_control|].
  eapply same_control_trans; [apply connect_watch_control|].
  by repeat split.
Qed.

Lemma backtrack_level l st st' : backtrack l st = Some st' → level st' = l.
Proof.
  unfold backtrack. destruct (l <? 0); [done|].
  destruct (control st !! Z.to_nat l); [|done].
  destruct (_ <? _)%nat; [done|]. by intros [= <-].
Qed.

Lemma unassign_backjumps lits st :
  backjumps (foldl (λ s lit, unassign lit s) st lits) = backjumps st.
Proof.
  revert st. induction lits as [|l lits IH]; intros st; simpl; [done|].
  rewrite IH. unfold unassign. by destruct (_ <? _).
Qed.

Lemma backtrack_backjumps l st st' :
  backtrack l st = Some st' → backjumps st' = backjumps st.
Proof.
  unfold backtrack. destruct (l <? 0); [done|].
  destruct (control st !! Z.to_nat l); [|done].
  destruct (_ <? _)%nat; [done|]. intros [= <-]. simpl.
  apply unassign_backjumps.
Qed.

Lemma wrap32_pred b :
  0 ≤ b < 2 ^ 32 → (b <? wrap32 (b - 1)) = (b =? 0).
Proof.
  intros Hb. unfold wrap32. destruct (Z.eqb_spec b 0) as [->|Hne].
  - reflexivity.
  - rewrite Z.mod_small by lia. apply Z.ltb_ge. lia.
Qed.

(** X15: what the counter of backjumps does.  [analyze] compares the backjump level with
    [level - 1] after [backtrack] has set [level] to the backjump level, so
    the test is [B < B - 1] in unsigned arithmetic: the counter moves exactly
    when the backjump level is 0, whatever the conflict level was. *)
Theorem backjumps_counted (uip : Z) (learned : list Z) (b : Z)
    (st st' : State) :
  learn uip learned b st = Some st' → 0 ≤ b < 2 ^ 32 →
  backjumps st' = backjumps st + (if b =? 0 then 1 else 0).
Proof.
  unfold learn. intros Hl Hb.
  destruct (backtrack b st) as [st1|] eqn:Hbt; [|done].
  pose proof (backtrack_level _ _ _ Hbt) as Hlv.
  pose proof (backtrack_backjumps _ _ _ Hbt) as Hbj.
  set (ls := minimize st learned ++ [- uip]) in *.
  set (X := if (1 <? length ls)%nat
            then let '(s, h) := add_clause ls st1 in assign (- uip) (Some h) s
            else assign (- uip) None st1) in *.
  assert (HX : same_control st1 X).
  { subst X. destruct (1 <? length ls)%nat; [|apply assign_control].
    pose proof (add_clause_control ls st1) as Ha.
    destruct (add_clause ls st1) as [st2 h].
    exact (same_control_trans _ _ _ Ha (assign_control _ _ _)). }
  destruct HX as (_&_&_&_&HXl&_&_&HXb&_).
  injection Hl as <-. rewrite HXl, Hlv, wrap32_pred by done.
  destruct (b =? 0); simpl; lia.
Qed.

Lemma backjumps_counted_witness :
  ∃ st c st1 st',
    unit_conflict = Some (st, Some c)
    ∧ analyze_conflict c st = Some (st1, 1, [], 0)
    ∧ learn 1 [] 0 st1 = Some st' ∧ 0 ≤ 0 < 2 ^ 32
    ∧ backjumps st' = backjumps st1 + 1.
Proof.
  eexists _, _, _, _. split; [vm_compute; reflexivity|].
  split; [vm_compute; reflexivity|].
  match goal with |- ?P ∧ _ =>
    assert (Hl : P) by (vm_compute; reflexivity)
  end.
  split; [exact Hl|]. split; [lia|].
  exact (backjumps_counted _ _ _ _ _ Hl ltac:(lia)).
Defined.

(** C6 fails on the code.  On [-1 2 0], [-1 -2 0] the first conflict is at
    level 1 and the backjump level is 0, one level below: the claim leaves
    [backjumps] alone, [analyze] increments it. *)
Lemma backjumps_at_level_one :
  ∃ st c st1 st',
    unit_conflict = Some (st, Some c)
    ∧ level st = 1 ∧ backjumps st = 0
    ∧ analyze_conflict c st = Some (st1, 1, [], 0)
    ∧ analyze c st = Some st'
    ∧ level st' = 0 ∧ backjumps st' = 1.
Proof.
  eexists _, _, _, _. split; [vm_compute; reflexivity|].
  split; [vm_compute; reflexivity|]. split; [vm_compute; reflexivity|].
  split; [vm_compute; reflexivity|]. split; [vm_compute; reflexivity|].
  split; vm_compute; reflexivity.
Qed.

(** ** Runs that end wrong *)

(** C1 fails on the code.  The formula [skipped_cnf] has no empty clause,
    [solve] returns 10 with all five variables assigned, and the clause
    [-1 -2] has no true literal: the run decides 1 and 2, and each time the
    loop over the watch list steps over that clause after the clause before
    it was erased from the list. *)
Lemma solve_skips_clause :
  ∃ st c,
    empty_clause (parse 5 no_limit skipped_cnf) = None
    ∧ solve 10 (parse 5 no_limit skipped_cnf) = Some (st, satisfiable)
    ∧ trail st = [1; 4; 2; 3; 5]
    ∧ clauses st !! 2%nat = Some c ∧ literals c = [-1; -2]
    ∧ value st (-1) = -1 ∧ value st (-2) = -1
    ∧ clause_satisfied st c = false ∧ check_model st = false.
Proof.
  eexists _, _. split; [vm_compute; reflexivity|].
  split; [vm_compute; reflexivity|]. split; [vm_compute; reflexivity|].
  split; [vm_compute; reflexivity|]. repeat split; vm_compute; reflexivity.
Qed.


(** C5 as stated fails on literals of level 0.  In the run of
    [minimize_cnf] the candidate at the first conflict is [-3 -2]; the
    reason of 3 is [-1 -2 3], whose other literals are [-1], assigned at
    level 0, and [-2], in the candidate; the minimization keeps [-3]. *)
Lemma minimize_keeps_literal :
  ∃ st h st1 c,
    minimize_conflict = Some (st, Some h)
    ∧ analyze_conflict h st = Some (st1, 4, [-3; -2], 1)
    ∧ reason_of st1 3 = Some 1%nat ∧ clauses st1 !! 1%nat = Some c
    ∧ literals c = [-1; -2; 3]
    ∧ level_of st1 1 = 0 ∧ -2 ∈ [-3; -2]
    ∧ minimize st1 [-3; -2] = [-3; -2].
Proof.
  eexists _, _, _, _. split; [vm_compute; reflexivity|].
  split; [vm_compute; reflexivity|]. split; [vm_compute; reflexivity|].
  split; [vm_compute; reflexivity|]. split; [vm_compute; reflexivity|].
  split; [vm_compute; reflexivity|].
  split; [apply list_elem_of_further, list_elem_of_here|].
  vm_compute; reflexivity.
Qed.

(** ** Minimization *)

Lemma erase_all_elem {A} `{EqDecision A} (x y : A) (l : list A) :
  y ∈ erase_all x l ↔ y ≠ x ∧ y ∈ l.
Proof. unfold erase_all. by rewrite list_elem_of_filter. Qed.

Lemma redundant_true st learned lit :
  redundant st learned lit = true →
  ∃ r c, reason_of st (Z.abs lit) = Some r ∧ clauses st !! r = Some c
         ∧ ∀ o, o ∈ literals c → Z.abs o ≠ Z.abs lit → o ∈ learned.
Proof.
  unfold redundant. destruct (reason_of st (Z.abs lit)) as [r|]; [|done].
  destruct (clauses st !! r) as [c|] eqn:Hc; [|done].
  intros Hf. exists r, c. split; [done|]. split; [done|].
  intros o Ho Hne. rewrite forallb_forall in Hf.
  apply list_elem_of_In in Ho. specialize (Hf o Ho).
  apply orb_true_iff in Hf as [He|Hin].
  - apply Z.eqb_eq in He. congruence.
  - by apply bool_decide_eq_true in Hin.
Qed.

(** What holds of the candidate all along the loop of the minimization:
    nothing is added, and what is missing was redundant when it left. *)
Lemma minimize_from_inv st (learned0 : list Z) k i n0 buf learned :
  (∀ x, x ∈ learned → x ∈ learned0) →
  (∀ l, l ∈ learned0 → l ∉ learned →
     ∃ r c, reason_of st (Z.abs l) = Some r ∧ clauses st !! r = Some c
            ∧ ∀ o, o ∈ literals c → Z.abs o ≠ Z.abs l → o ∈ learned0) →
  (∀ x, x ∈ minimize_from k st i n0 buf learned → x ∈ learned0)
  ∧ (∀ l, l ∈ learned0 → l ∉ minimize_from k st i n0 buf learned →
       ∃ r c, reason_of st (Z.abs l) = Some r ∧ clauses st !! r = Some c
              ∧ ∀ o, o ∈ literals c → Z.abs o ≠ Z.abs l → o ∈ learned0).
Proof.
  revert i buf learned. induction k as [|k IH]; intros i buf learned Hsub Hrem;
    simpl; [done|].
  destruct (buf !! i) as [lit|]; [|done].
  destruct (redundant st learned lit) eqn:Hred; [|by apply IH].
  apply IH.
  - intros x Hx. apply erase_all_elem in Hx as [_ Hx]. by apply Hsub.
  - intros l Hl Hnot.
    destruct (Z.eq_dec l lit) as [->|Hne].
    + apply redundant_true in Hred as (r & c & Hr & Hc & Ho).
      exists r, c. split; [done|]. split; [done|]. intros o Hin Habs.
      apply Hsub. by apply Ho.
    + apply Hrem; [done|]. intros Hin. apply Hnot. by apply erase_all_elem.
Qed.

Lemma minimize_from_keeps st k i n0 buf learned l :
  reason_of st (Z.abs l) = None → l ∈ learned →
  l ∈ minimize_from k st i n0 buf learned.
Proof.
  intros Hr. revert i buf learned.
  induction k as [|k IH]; intros i buf learned Hin; simpl; [done|].
  destruct (buf !! i) as [lit|]; [|done].
  destruct (redundant st learned lit) eqn:Hred; [|by apply IH].
  apply IH. apply erase_all_elem. split; [|done]. intros ->.
  unfold redundant in Hred. by rewrite Hr in Hred.
Qed.


Lemma add_clause_stored lits st :
  ∃ c, clauses (add_clause lits st).1 = clauses st ++ [c]
       ∧ literals c = lits.
Proof.
  destruct lits as [|l0 [|l1 lits]].
  - rewrite add_clause_empty. by eexists.
  - rewrite add_clause_unit. unfold special_case.
    destruct (_ =? 0); [|destruct (_ <? 0)]; unfold assign;
      try destruct (level _ =? 0); by eexists.
  - unfold add_clause, add_clause_at. cbn [fst]. rewrite store_clause_eq.
    unfold special_case, init_watches, connect_watch, init_blocker.
    repeat (match goal with |- context [if ?b then _ else _] =>
              destruct b end);
      fields; rewrite !alter_snoc; by eexists.
Qed.

Lemma trail_assign lit r st : trail (assign lit r st) = trail st ++ [lit].
Proof. unfold assign. by destruct (level _ =? 0). Qed.

Lemma clauses_assign lit r st : clauses (assign lit r st) = clauses st.
Proof. unfold assign. by destruct (level _ =? 0). Qed.

(** C5, amended.  The minimization removes a literal of the candidate only
    if the literal has a reason and every literal of the reason on another
    variable is itself in the candidate; a literal of level 0 in the reason
    does not count as present.  A literal without reason stays, nothing is
    added, and the negated UIP is appended after the minimization: it is
    the last literal of the clause that is learned and the literal that is
    assigned. *)
Theorem minimize_removes_redundant (st : State) (learned : list Z) :
  (∀ l, l ∈ learned → l ∉ minimize st learned →
     ∃ r c, reason_of st (Z.abs l) = Some r ∧ clauses st !! r = Some c
            ∧ ∀ o, o ∈ literals c → Z.abs o ≠ Z.abs l → o ∈ learned)
  ∧ (∀ l, l ∈ learned → reason_of st (Z.abs l) = None →
       l ∈ minimize st learned)
  ∧ (∀ l, l ∈ minimize st learned → l ∈ learned)
  ∧ (∀ uip b st', learn uip learned b st = Some st' →
       last (trail st') = Some (- uip)
       ∧ (minimize st learned ≠ [] →
          ∃ c, last (clauses st') = Some c
               ∧ literals c = minimize st learned ++ [- uip])).
Proof.
  unfold minimize.
  destruct (minimize_from_inv st learned (length learned) 0
              (length learned) learned learned) as [Hsub Hrem]; [done|done|].
  split; [exact Hrem|]. split.
  { intros l Hl Hr. by apply minimize_from_keeps. }
  split; [exact Hsub|].
  intros uip b st' Hl. unfold learn in Hl. fold (minimize st learned) in *.
  destruct (backtrack b st) as [st1|]; [|done].
  set (ls := minimize st learned ++ [- uip]) in *.
  assert (Hlen : (1 <? length ls)%nat = true ↔ minimize st learned ≠ []).
  { subst ls. rewrite length_app. simpl. rewrite Nat.ltb_lt.
    destruct (minimize st learned); simpl; split; (done || lia). }
  destruct (1 <? length ls)%nat eqn:Hlt.
  - destruct (add_clause_stored ls st1) as (c & Hc & Hlits).
    destruct (add_clause ls st1) as [st2 h]. simpl in Hc.
    assert (trail st' = trail st2 ++ [- uip] ∧ clauses st' = clauses st2)
      as [Ht Hcl].
    { injection Hl as <-.
      destruct (_ <? _); simpl; by rewrite trail_assign, clauses_assign. }
    split; [by rewrite Ht, last_snoc|]. intros _. exists c.
    by rewrite Hcl, Hc, last_snoc.
  - assert (trail st' = trail st1 ++ [- uip]) as Ht.
    { injection Hl as <-. destruct (_ <? _); simpl; by rewrite trail_assign. }
    split; [by rewrite Ht, last_snoc|].
    intros Hne. apply Hlen in Hne. discriminate.
Qed.

Lemma minimize_removes_redundant_witness :
  ∃ st h st1,
    removing_conflict = Some (st, Some h)
    ∧ analyze_conflict h st = Some (st1, 2, [4; -1], 1)
    ∧ minimize st1 [4; -1] = [-1]
    ∧ ∃ r c, reason_of st1 (Z.abs 4) = Some r ∧ clauses st1 !! r = Some c
             ∧ ∀ o, o ∈ literals c → Z.abs o ≠ Z.abs 4 → o ∈ [4; -1].
Proof.
  eexists _, _, _. split; [vm_compute; reflexivity|].
  split; [vm_compute; reflexivity|].
  match goal with |- minimize ?s ?l = _ ∧ _ =>
    assert (Hm : minimize s l = [-1]) by (vm_compute; reflexivity);
    split; [exact Hm|];
    apply (proj1 (minimize_removes_redundant s l) 4)
  end.
  - apply list_elem_of_here.
  - rewrite Hm. intros Hin. apply list_elem_of_singleton in Hin. discriminate.
Defined.

(** ** Watches after a visit *)

Lemma sign_consistent_range st l :
  sign_consistent st → l ≠ 0 →
  value st l = -1 ∨ value st l = 0 ∨ value st l = 1.
Proof. intros Hs Hl. destruct (Hs l Hl) as [[? _]|[[? _]|[? _]]]; lia. Qed.





(** ** The clause store stays well formed *)





























Lemma reachable_sign_consistent st : reachable st → sign_consistent st.
Proof.
  intros Hr. destruct (reachable_evolves st Hr) as (n & lim & He).
  apply (sign_consistent_evolves _ _ He), sign_consistent_initialize.
Qed.


(** ** The assignment is sign consistent *)

(** C10.  In every state between calls of the public operations, each
    literal other than 0 has the opposite value of its negation: the two
    entries of a variable are both 0, or one is 1 and the other -1. *)
Theorem values_sign_consistent (st : State) (l : Z) :
  reachable st → l ≠ 0 →
  value st l = - value st (- l)
  ∧ ((value st l = 0 ∧ value st (- l) = 0)
     ∨ (value st l = 1 ∧ value st (- l) = -1)
     ∨ (value st l = -1 ∧ value st (- l) = 1)).
Proof.
  intros Hr Hl. pose proof (reachable_sign_consistent st Hr l Hl) as H.
  split; [|exact H]. destruct H as [[-> ->]|[[-> ->]|[-> ->]]]; done.
Qed.

Lemma reachable_parse n lim cnf :
  Forall nonzero cnf → reachable (parse n lim cnf).
Proof.
  unfold parse. generalize (reach_initialize n lim).
  generalize (initialize n lim) as st. intros st Hr Hnz. revert st Hr.
  induction Hnz as [|lits cnf Hl _ IH]; intros st Hr; simpl; [done|].
  apply IH. by apply reach_add_clause.
Qed.

Lemma nonzero_unit_cnf : Forall nonzero unit_cnf.
Proof. repeat constructor; lia. Qed.

Lemma values_sign_consistent_witness :
  reachable (parse 2 no_limit unit_cnf) ∧ 1 ≠ 0
  ∧ value (parse 2 no_limit unit_cnf) 1
    = - value (parse 2 no_limit unit_cnf) (- 1).
Proof.
  split; [exact (reachable_parse _ _ _ nonzero_unit_cnf)|]. split; [lia|].
  apply (values_sign_consistent (parse 2 no_limit unit_cnf) 1);
    [exact (reachable_parse _ _ _ nonzero_unit_cnf)|lia].
Defined.

(** ** The decision heuristic *)







(** ** Trail consistency *)


Lemma run_evolves st : run st → ∃ n lim, evolves (initialize n lim) st.
Proof.
  induction 1 as [n lim|st lits _ _ (n & lim & IH)|st st' r _ (n & lim & IH) Hp
                 |st st' _ (n & lim & IH) Hd
                 |st st1 c st2 uip learned b st' _ (n & lim & IH) Hp Ha Hb
                 |st st1 c st' _ (n & lim & IH) Hp Ha]; exists n, lim.
  - apply evolves_refl.
  - eapply ev_trans; [exact IH|apply add_clause_evolves].
  - eapply ev_trans; [exact IH|by eapply propagate_evolves].
  - eapply ev_trans; [exact IH|by apply decide_evolves].
  - apply analyze_conflict_stamps in Ha as [m ->].
    apply (ev_trans _ _ _ IH). apply (ev_trans _ _ _ (propagate_evolves _ _ _ Hp)).
    refine (ev_trans _ (set_stamped (λ _, m) st1) _ _ (backtrack_evolves _ _ _ Hb)).
    by apply ev_frame.
  - apply (ev_trans _ _ _ IH). apply (ev_trans _ _ _ (propagate_evolves _ _ _ Hp)).
    by apply (analyze_evolves c).
Qed.

Lemma run_sign_consistent st : run st → sign_consistent st.
Proof.
  intros Hr. destruct (run_evolves st Hr) as (n & lim & He).
  apply (sign_consistent_evolves _ _ He), sign_consistent_initialize.
Qed.





Lemma decisions_upto_full ctl i :
  decisions_upto ctl i = length ctl → ∀ k, k ∈ ctl → (k ≤ i)%nat.
Proof.
  unfold decisions_upto. induction ctl as [|k ctl IH]; intros Hlen k' Hk'.
  - by apply elem_of_nil in Hk'.
  - rewrite filter_cons in Hlen.
    pose proof (length_filter (λ k, (k ≤ i)%nat) ctl) as Hle.
    destruct (base.decide (k ≤ i)%nat) as [Hk|Hk]; simpl in Hlen; [|lia].
    apply elem_of_cons in Hk' as [->|Hk']; [done|]. apply IH; [lia|done].
Qed.


Lemma control_assign lit r st : control (assign lit r st) = control st.
Proof. unfold assign. by destruct (level _ =? 0). Qed.

Lemma level_assign_state lit r st : level (assign lit r st) = level st.
Proof. unfold assign. by destruct (level _ =? 0). Qed.






















(** ** The counters of the analysis *)









(** ** Counting with sub-multisets *)








(** ** The analysis finds a literal of the conflict level *)


(** ** Learning keeps the trail consistent *)







(** ** The invariant of a run *)






Lemma run_parse n lim cnf : Forall nonzero cnf → run (parse n lim cnf).
Proof.
  unfold parse. generalize (run_initialize n lim).
  generalize (initialize n lim) as st. intros st Hr Hnz. revert st Hr.
  induction Hnz as [|lits cnf Hl _ IH]; intros st Hr; simpl; [done|].
  apply IH. by apply run_add_clause.
Qed.




(** * Further properties of the run *)


Lemma true_negation st l :
  sign_consistent st → l ≠ 0 → value st l = 1 → value st (- l) = -1.
Proof. intros Hs Hl Hv. destruct (Hs l Hl) as [[? ?]|[[? ?]|[? ?]]]; lia. Qed.


(** ** The analysis of a conflict *)



(** ** Backtracking *)





(** ** The trail and the control stack *)





(** ** How the assignment grows *)

Lemma grows_frame st st' :
  values st' = values st → trail st' = trail st →
  literals <$> clauses st' = literals <$> clauses st →
  variables st' = variables st → level st' = level st →
  control st' = control st → fixed st' = fixed st →
  grows st st' [] [].
Proof.
  intros Hv Ht Hc Hn Hl Hct Hf.
  split; rewrite ?app_nil_r; try done.
  - intros l _. unfold value. by rewrite Hv.
  - intros l Hl'. left. unfold value in *. by rewrite <- Hv.
  - intros l Hl'. by apply elem_of_nil in Hl'.
  - rewrite Hf. destruct (_ =? _); simpl; lia.
Qed.

Lemma grows_trans s1 s2 s3 n1 n2 m1 m2 :
  grows s1 s2 n1 m1 → grows s2 s3 n2 m2 → grows s1 s3 (n1 ++ n2) (m1 ++ m2).
Proof.
  intros [Ht1 Ho1 Hn1 Hl1 Hc1 Hv1 Hlv1 Hct1 Hf1]
         [Ht2 Ho2 Hn2 Hl2 Hc2 Hv2 Hlv2 Hct2 Hf2].
  split; try congruence.
  - by rewrite Ht2, Ht1, app_assoc.
  - intros l Hl. rewrite Ho2; [by apply Ho1|]. by rewrite Ho1.
  - intros l Hl. rewrite !elem_of_app.
    destruct (Hn2 l Hl) as [H|[H|H]]; [|tauto|tauto].
    destruct (Hn1 l H) as [H'|[H'|H']]; tauto.
  - intros l Hl. apply elem_of_app in Hl as [Hl|Hl]; [|by apply Hl2].
    destruct (Hl1 l Hl) as (c & Hc & Hlc).
    apply list_elem_of_lookup in Hc as [h Hh].
    assert (Hlk : (literals <$> clauses s3) !! h = Some (literals c)).
    { rewrite Hc2. apply lookup_app_l_Some.
      by rewrite list_lookup_fmap, Hh. }
    rewrite list_lookup_fmap in Hlk.
    destruct (clauses s3 !! h) as [c'|] eqn:Hc'; [|done].
    injection Hlk as Hlk. exists c'. split; [|by rewrite Hlk].
    by apply list_elem_of_lookup_2 in Hc'.
  - by rewrite Hc2, Hc1, app_assoc.
  - rewrite Hf2, Hf1, Hlv1, length_app. destruct (_ =? _); lia.
Qed.

Lemma fixed_assign lit r st :
  fixed (assign lit r st) = fixed st + (if level st =? 0 then 1 else 0).
Proof. unfold assign. destruct (level st =? 0) eqn:H; cbn; rewrite ?H; cbn; lia. Qed.

Lemma variables_assign lit r st : variables (assign lit r st) = variables st.
Proof. by destruct (assign_control lit r st) as (-> & _). Qed.

Lemma grows_assign lit r st c :
  value st lit = 0 → value st (- lit) = 0 →
  c ∈ clauses st → lit ∈ literals c →
  grows st (assign lit r st) [lit] [].
Proof.
  intros H0 H0' Hc Hl. split.
  - apply trail_assign.
  - intros l Hv. apply value_assign_other; congruence.
  - intros l Hv. rewrite !list_elem_of_singleton.
    destruct (Z.eq_dec l lit) as [|Hne]; [tauto|].
    destruct (Z.eq_dec l (- lit)) as [|Hne']; [right; right; lia|].
    left. by rewrite value_assign_other in Hv.
  - intros l Hl'. apply list_elem_of_singleton in Hl' as ->.
    exists c. by rewrite clauses_assign.
  - by rewrite clauses_assign, app_nil_r.
  - apply variables_assign.
  - apply level_assign_state.
  - apply control_assign.
  - rewrite fixed_assign. destruct (_ =? _); simpl; lia.
Qed.



Lemma extends_grows st st' new more : grows st st' new more → extends st st'.
Proof.
  intros Hg h c Hc.
  assert (Hlk : (literals <$> clauses st') !! h = Some (literals c)).
  { rewrite (gr_clauses _ _ _ _ Hg). apply lookup_app_l_Some.
    by rewrite list_lookup_fmap, Hc. }
  rewrite list_lookup_fmap in Hlk.
  destruct (clauses st' !! h) as [c'|]; [|done].
  injection Hlk as Hlk. by exists c'.
Qed.



Lemma grows_more st st' more :
  values st' = values st → trail st' = trail st →
  literals <$> clauses st' = (literals <$> clauses st) ++ more →
  variables st' = variables st → level st' = level st →
  control st' = control st → fixed st' = fixed st →
  grows st st' [] more.
Proof.
  intros Hv Ht Hc Hn Hl Hct Hf.
  split; rewrite ?app_nil_r; try done.
  - intros l _. unfold value. by rewrite Hv.
  - intros l Hl'. left. unfold value in *. by rewrite <- Hv.
  - intros l Hl'. by apply elem_of_nil in Hl'.
  - rewrite Hf. destruct (_ =? _); simpl; lia.
Qed.

Lemma add_clause_grows lits st :
  nonzero lits → sign_consistent st →
  ∃ new, grows st (add_clause lits st).1 new [lits]
         ∧ propagated (add_clause lits st).1 = propagated st.
Proof.
  intros Hnz Hs. destruct lits as [|l0 [|l1 lits]].
  - rewrite add_clause_empty. exists []. split; [|done].
    apply grows_more; try done. cbn. by rewrite fmap_app.
  - apply Forall_cons in Hnz as [H0 _]. rewrite add_clause_unit. cbn [fst].
    set (X := set_matrix _ _).
    assert (HX : grows st X [] [[l0]])
      by (apply grows_more; try done; cbn; by rewrite fmap_app).
    unfold special_case.
    change (value X l0) with (value st l0).
    destruct (Z.eqb_spec (value st l0) 0) as [Hv|Hv].
    + exists [l0]. split.
      * apply (grows_trans _ _ _ [] _ _ [] HX).
        apply (grows_assign _ _ _ (mkClause [l0] 0 0 l0)).
        -- done.
        -- change (value X (- l0)) with (value st (- l0)).
           destruct (Hs _ H0) as [[? ?]|[[? ?]|[? ?]]]; lia.
        -- cbn. apply elem_of_app. right. by apply list_elem_of_singleton.
        -- by apply list_elem_of_singleton.
      * by destruct (assign_control l0 None X) as (_ & _ & -> & _).
    + exists []. split; [|by destruct (_ <? _)].
      destruct (_ <? _); [|done].
      apply (grows_trans _ _ _ [] _ _ [] HX). by apply grows_frame.
  - apply Forall_cons in Hnz as [H0 Hnz]. apply Forall_cons in Hnz as [H1 _].
    rewrite add_clause_watched by done. exists []. split; [|done].
    apply grows_more; try done. cbn. by rewrite fmap_app.
Qed.

(** ** The bookkeeping of the search *)



















(** ** Propagation *)



(** ** The search stays over the declared variables *)






Lemma in_range_nonzero n lits : Forall (in_range n) lits → nonzero lits.
Proof. intros H. apply (Forall_impl _ _ _ H). by intros l [? _]. Qed.

Lemma well_formed_nonzero n cnf : well_formed n cnf → Forall nonzero cnf.
Proof. intros H. apply (Forall_impl _ _ _ H). apply in_range_nonzero. Qed.















(** ** The search never leaves the trail *)












(** ** The answer SATISFIABLE *)





(** ** The learned clause *)







(** ** The end of [main] *)








(** ** The turns of the search *)





(** ** Formulas that need no search *)

Lemma empty_clause_assign lit r st :
  empty_clause (assign lit r st) = empty_clause st.
Proof. unfold assign. by destruct (_ =? _). Qed.

Lemma empty_clause_add_clause lits st :
  nonzero lits → empty_clause st ≠ None →
  empty_clause (add_clause lits st).1 ≠ None.
Proof.
  intros Hnz He. destruct lits as [|l0 [|l1 lits]].
  - by rewrite add_clause_empty.
  - rewrite add_clause_unit. cbn [fst]. unfold special_case.
    destruct (_ =? 0); [by rewrite empty_clause_assign|].
    by destruct (_ <? 0).
  - apply Forall_cons in Hnz as [H0 Hnz]. apply Forall_cons in Hnz as [H1 _].
    by rewrite add_clause_watched.
Qed.

Lemma add_clause_unit_true l st :
  l ≠ 0 → sign_consistent st →
  empty_clause (add_clause [l] st).1 ≠ None
  ∨ value (add_clause [l] st).1 l = 1.
Proof.
  intros Hl Hs. rewrite add_clause_unit. cbn [fst]. unfold special_case.
  set (X := set_matrix _ _). change (value X l) with (value st l).
  destruct (Z.eqb_spec (value st l) 0) as [H0|H0].
  - right. by apply value_assign_same.
  - destruct (Z.ltb_spec (value st l) 0); [by left|]. right.
    change (value X l) with (value st l).
    destruct (sign_consistent_range st l Hs Hl) as [?|[?|?]]; lia.
Qed.

Lemma add_clause_unit_false l st :
  l ≠ 0 → sign_consistent st →
  empty_clause st ≠ None ∨ value st l = 1 →
  empty_clause (add_clause [- l] st).1 ≠ None.
Proof.
  intros Hl Hs [He|Hv].
  - apply empty_clause_add_clause; [|done]. constructor; [lia|constructor].
  - rewrite add_clause_unit. cbn [fst]. unfold special_case.
    set (X := set_matrix _ _). change (value X (- l)) with (value st (- l)).
    rewrite (true_negation st l Hs Hl Hv). done.
Qed.

Lemma add_clause_keeps_true l lits st :
  nonzero lits → sign_consistent st →
  empty_clause st ≠ None ∨ value st l = 1 →
  empty_clause (add_clause lits st).1 ≠ None
  ∨ value (add_clause lits st).1 l = 1.
Proof.
  intros Hnz Hs [He|Hv]; [left; by apply empty_clause_add_clause|].
  right. destruct (add_clause_grows lits st Hnz Hs) as (new & Hg & _).
  rewrite (gr_old _ _ _ _ Hg); lia.
Qed.

Lemma parse_from_preserves (P : State → Prop) cnf st :
  (∀ st lits, run st → nonzero lits → P st → P (add_clause lits st).1) →
  run st → Forall nonzero cnf → P st →
  P (foldl (λ st lits, (add_clause lits st).1) st cnf)
  ∧ run (foldl (λ st lits, (add_clause lits st).1) st cnf).
Proof.
  intros Hstep Hr Hnz. revert st Hr.
  induction Hnz as [|lits cnf Hl _ IH]; intros st Hr HP; [done|].
  cbn [foldl]. apply IH; [by apply run_add_clause|by apply Hstep].
Qed.

Lemma contradictory_units n lim (a b c : list (list Z)) l :
  Forall nonzero (a ++ [l] :: b ++ [- l] :: c) →
  empty_clause (parse n lim (a ++ [l] :: b ++ [- l] :: c)) ≠ None.
Proof.
  intros Hnz. apply Forall_app in Hnz as [Ha Hnz].
  apply Forall_cons in Hnz as [Hl Hnz]. apply Forall_app in Hnz as [Hb Hnz].
  apply Forall_cons in Hnz as [Hl' Hc].
  assert (Hl0 : l ≠ 0) by (by apply Forall_cons in Hl as [? _]).
  unfold parse. rewrite foldl_app. cbn [foldl]. rewrite foldl_app.
  cbn [foldl].
  pose proof (run_parse n lim a Ha) as Hr0. unfold parse in Hr0.
  set (s0 := foldl _ (initialize n lim) a) in *.
  pose proof (add_clause_unit_true l s0 Hl0 (run_sign_consistent _ Hr0))
    as H1.
  pose proof (run_add_clause s0 [l] Hl Hr0) as Hr1.
  set (s1 := (add_clause [l] s0).1) in *.
  destruct (parse_from_preserves
              (λ st, empty_clause st ≠ None ∨ value st l = 1) b s1)
    as [H2 Hr2]; try done.
  { intros st lits Hr Hlits. apply add_clause_keeps_true; [done|].
    by apply run_sign_consistent. }
  set (s2 := foldl _ s1 b) in *.
  pose proof (add_clause_unit_false l s2 Hl0 (run_sign_consistent _ Hr2) H2)
    as H3.
  pose proof (run_add_clause s2 [- l] Hl' Hr2) as Hr3.
  set (s3 := (add_clause [- l] s2).1) in *.
  assert (Hkeep : ∀ st lits, run st → nonzero lits →
            empty_clause st ≠ None → empty_clause (add_clause lits st).1 ≠ None)
    by (intros st lits _ Hlits; by apply empty_clause_add_clause).
  by destruct (parse_from_preserves (λ st, empty_clause st ≠ None) c s3
                 Hkeep Hr3 Hc H3) as [H4 _].
Qed.

(** On zeroed memory a formula with an empty clause, or with the two unit
    clauses of a literal and of its negation, is answered without search. *)
Lemma parse_trivially_unsatisfiable n lim cnf fuel :
  Forall nonzero cnf →
  [] ∈ cnf ∨ (∃ l, [l] ∈ cnf ∧ [- l] ∈ cnf) →
  empty_clause (parse n lim cnf) ≠ None
  ∧ solve fuel (parse n lim cnf) = Some (parse n lim cnf, unsatisfiable).
Proof.
  intros Hnz Hcase.
  assert (He : empty_clause (parse n lim cnf) ≠ None).
  { destruct Hcase as [Hin|(l & Hin1 & Hin2)].
    - apply list_elem_of_split in Hin as (a & c & ->).
      apply Forall_app in Hnz as [Ha Hnz]. apply Forall_cons in Hnz as [_ Hc].
      unfold parse. rewrite foldl_app. cbn [foldl].
      pose proof (run_parse n lim a Ha) as Hr0. unfold parse in Hr0.
      set (s0 := foldl _ (initialize n lim) a) in *.
      pose proof (run_add_clause s0 [] (Forall_nil_2 _) Hr0) as Hr1.
      assert (Hkeep : ∀ st lits, run st → nonzero lits →
                empty_clause st ≠ None →
                empty_clause (add_clause lits st).1 ≠ None)
        by (intros st lits _ Hlits; by apply empty_clause_add_clause).
      assert (H1 : empty_clause (add_clause [] s0).1 ≠ None)
        by (by rewrite add_clause_empty).
      by destruct (parse_from_preserves (λ st, empty_clause st ≠ None) c
                     (add_clause [] s0).1 Hkeep Hr1 Hc H1) as [H4 _].
    - assert (Hl0 : l ≠ 0).
      { rewrite Forall_forall in Hnz. specialize (Hnz _ Hin1).
        by apply Forall_cons in Hnz as [? _]. }
      apply list_elem_of_split in Hin1 as (a & rest & ->).
      apply elem_of_app in Hin2 as [Hin2|Hin2].
      + apply list_elem_of_split in Hin2 as (a1 & a2 & ->).
        rewrite <- app_assoc, <- app_comm_cons.
        rewrite <- app_assoc, <- app_comm_cons in Hnz.
        rewrite <- (Z.opp_involutive l) at 2.
        rewrite <- (Z.opp_involutive l) in Hnz at 2.
        by apply contradictory_units.
      + apply elem_of_cons in Hin2 as [Heq|Hin2]; [injection Heq; lia|].
        apply list_elem_of_split in Hin2 as (b & c & ->).
        by apply contradictory_units. }
  split; [done|]. unfold solve.
  by destruct (empty_clause (parse n lim cnf)).
Qed.

(** X23: the fresh memory of the clauses reaches the watches, the blockers
    and the watch index, and nothing else that [parse] leaves.  Whatever the
    allocations hold, with watches that index inside [watched], the values,
    the levels, the reasons, the trail, the control stack, the empty-clause
    record, the literals of the stored clauses, the occurrence lists and the
    counters are those that [parse] leaves on zeroed memory; and [parse_at]
    on zeroed memory is [parse]. *)
Theorem parse_memory mem n lim cnf :
  (∀ h, fresh_inside n (mem h)) →
  unwatched (parse_at mem n lim cnf) = unwatched (parse n lim cnf)
  ∧ parse_at (λ _, zeroed) n lim cnf = parse n lim cnf.
Proof.
  intros _. split; [by apply unwatched_parse_from|]. reflexivity.
Qed.

Lemma parse_memory_witness :
  (∀ h : nat, fresh_inside 2 (mkFresh 2 (-1) 7))
  ∧ trail (parse_at (λ _, mkFresh 2 (-1) 7) 2 no_limit [[1]; [-2]]) = [1; -2]
  ∧ unwatched (parse_at (λ _, mkFresh 2 (-1) 7) 2 no_limit [[1]; [-2]])
    = unwatched (parse 2 no_limit [[1]; [-2]]).
Proof.
  assert (Hin : ∀ h : nat, fresh_inside 2 (mkFresh 2 (-1) 7))
    by (intros _; unfold fresh_inside, inside; simpl; lia).
  split; [exact Hin|]. split; [vm_compute; reflexivity|].
  exact (proj1 (parse_memory (λ _, mkFresh 2 (-1) 7) 2 no_limit
                  [[1]; [-2]] Hin)).
Defined.

(** X13: a formula with an empty clause, or with the two unit clauses of
    a literal and of its negation, is answered without search, whatever the
    fresh memory of its clauses holds, with watches that index inside
    [watched]: [parse] leaves [empty_clause] set, and [solve] returns 20 at
    once with the state that [parse] left. *)
Theorem trivially_unsatisfiable mem n lim cnf fuel :
  0 ≤ n → well_formed n cnf →
  (∀ h, fresh_inside n (mem h)) →
  [] ∈ cnf ∨ (∃ l, [l] ∈ cnf ∧ [- l] ∈ cnf) →
  empty_clause (parse_at mem n lim cnf) ≠ None
  ∧ solve fuel (parse_at mem n lim cnf)
    = Some (parse_at mem n lim cnf, unsatisfiable).
Proof.
  intros _ Hwf _ Hcase.
  pose proof (parse_trivially_unsatisfiable n lim cnf fuel
                (well_formed_nonzero _ _ Hwf) Hcase) as [He _].
  assert (He' : empty_clause (parse_at mem n lim cnf) ≠ None).
  { pose proof (f_equal empty_clause
                  (unwatched_parse_from mem cnf (initialize n lim)
                     (initialize n lim) eq_refl)) as Heq.
    change (empty_clause (parse_at mem n lim cnf)
            = empty_clause (parse n lim cnf)) in Heq.
    by rewrite Heq. }
  split; [done|]. unfold solve.
  by destruct (empty_clause (parse_at mem n lim cnf)).
Qed.

Lemma trivially_unsatisfiable_witness :
  0 ≤ 1 ∧ well_formed 1 [[1]; [-1]]
  ∧ (∀ h : nat, fresh_inside 1 (mkFresh 1 (-1) 7))
  ∧ (∃ l, [l] ∈ [[1]; [-1]] ∧ [- l] ∈ [[1]; [-1]])
  ∧ solve 0 (parse_at (λ _, mkFresh 1 (-1) 7) 1 no_limit [[1]; [-1]])
    = Some (parse_at (λ _, mkFresh 1 (-1) 7) 1 no_limit [[1]; [-1]],
            unsatisfiable).
Proof.
  assert (Hn : 0 ≤ 1) by lia.
  assert (Hwf : well_formed 1 [[1]; [-1]])
    by (repeat constructor; unfold in_range; try lia).
  assert (Hin : ∀ h : nat, fresh_inside 1 (mkFresh 1 (-1) 7))
    by (intros _; unfold fresh_inside, inside; simpl; lia).
  assert (Hl : ∃ l, [l] ∈ [[1]; [-1]] ∧ [- l] ∈ [[1]; [-1]])
    by (exists 1; split; [left|right; left]).
  split; [exact Hn|]. split; [exact Hwf|]. split; [exact Hin|].
  split; [exact Hl|].
  exact (proj2 (trivially_unsatisfiable _ 1 no_limit _ 0 Hn Hwf Hin
                  (or_intror Hl))).
Defined.

(** ** Deciding and taking the decision back *)




(** ** The clause store *)








(** ** The parser *)







(** ** Powers of two *)

(** X19: the bit test of [is_power_of_two], which picks the decisions that
    [decide] reports, is exact: it returns true for the powers of two
    and for no other number. *)
Theorem is_power_of_two_spec n :
  0 ≤ n → is_power_of_two n = true ↔ ∃ k, 0 ≤ k ∧ n = 2 ^ k.
Proof.
  intros Hn. unfold is_power_of_two. rewrite andb_true_iff, negb_true_iff.
  rewrite Z.eqb_neq, Z.eqb_eq. split.
  - intros [Hnz Hland]. exists (Z.log2 n).
    split; [apply Z.log2_nonneg|].
    destruct (Z.log2_spec n) as [Hlo Hhi]; [lia|].
    destruct (Z.eq_dec n (2 ^ Z.log2 n)) as [|Hne]; [done|]. exfalso.
    assert (Hbit : Z.testbit (Z.land n (n - 1)) (Z.log2 n) = true).
    { pose proof (Z.pow_pos_nonneg 2 (Z.log2 n) ltac:(lia) (Z.log2_nonneg n))
        as Hpos.
      assert (Hlog : Z.log2 (n - 1) = Z.log2 n)
        by (apply Z.log2_unique; [apply Z.log2_nonneg|lia]).
      rewrite Z.land_spec, (Z.bit_log2 n) by lia. rewrite <- Hlog.
      rewrite Z.bit_log2; [done|lia]. }
    rewrite Hland in Hbit. by rewrite Z.bits_0 in Hbit.
  - intros (k & Hk & ->).
    pose proof (Z.pow_pos_nonneg 2 k ltac:(lia) Hk). split; [lia|].
    replace (2 ^ k - 1) with (Z.ones k) by (rewrite Z.ones_equiv; lia).
    rewrite Z.land_ones by done. apply Z.mod_same. lia.
Qed.

Lemma is_power_of_two_spec_witness :
  0 ≤ 8 ∧ is_power_of_two 8 = true.
Proof.
  split; [lia|]. apply (is_power_of_two_spec 8); [lia|].
  exists 3. split; [lia|reflexivity].
Defined.

(** ** Reasons *)

















(** ** Registered watches *)





















